(** * Ensembl rsID -> GRCh38 coordinate mapper: model and properties

    Shallow embedding of [map_rsid_to_grch38_coord_ensembl_api.py].

    Conventions of the model.
    - A Python [str] is a [string] of bytes; the program's data (rsIDs,
      chromosome names, allele strings) is ASCII, on which Python's
      [strip], [lower], [startswith], slicing, [split] and the ordering of
      [sorted] act bytewise.
    - A Python [set] is a [gset]; its iteration order (which depends on the
      interpreter's string hashing) is a parameter, [hash_order].
    - A Python [dict] read from JSON is a [gmap] or a record of optional
      fields.
    - The network is a script of outcomes consumed by [session.post];
      [time.sleep] appends to a log of delays, or raises. A Python [float]
      is a finite rational ([Qc]), an infinity or a NaN: every finite
      delay the program computes is a comparison between, or a
      power-of-two multiple of, finite floats, which is exact. *)

From Stdlib Require Import Ascii String QArith Qcanon.
From stdpp Require Import numbers sorting pretty strings gmap list.

Set Warnings "-clear-no-such-hyp".

Open Scope string_scope.
Open Scope list_scope.

(** ** Strings *)

Module Str.

(** [str.isspace] on the ASCII range: TAB, LF, VT, FF, CR, the four
    separators FS, GS, RS, US, and the space. *)
Definition isspace (c : ascii) : bool :=
  let n := N_of_ascii c in
  ((9 <=? n) && (n <=? 13) || (28 <=? n) && (n <=? 32))%N.

Fixpoint lstrip (s : string) : string :=
  match s with
  | "" => ""
  | String c s' => if isspace c then lstrip s' else s
  end.

Definition rstrip (s : string) : string := String.rev (lstrip (String.rev s)).

(** [s.strip()] *)
Definition strip (s : string) : string := rstrip (lstrip s).

Definition lower_char (c : ascii) : ascii :=
  let n := N_of_ascii c in
  if ((65 <=? n) && (n <=? 90))%N then ascii_of_N (n + 32) else c.

(** [s.lower()] *)
Fixpoint lower (s : string) : string :=
  match s with
  | "" => ""
  | String c s' => String (lower_char c) (lower s')
  end.

(** [s.startswith(p)] *)
Definition startswith (s p : string) : bool := String.prefix p s.

(** [s[n:]] for [n >= 0] *)
Fixpoint drop (n : nat) (s : string) : string :=
  match n, s with
  | O, _ => s
  | S _, "" => ""
  | S n', String _ s' => drop n' s'
  end.

(** [s.split(sep)] for a one-character separator: never the empty list. *)
Fixpoint split (sep : ascii) (s : string) : list string :=
  match s with
  | "" => [""]
  | String c s' =>
      if decide (c = sep) then "" :: split sep s'
      else match split sep s' with
           | [] => [String c ""]
           | t :: ts => String c t :: ts
           end
  end.

(** [sep.join(l)] *)
Fixpoint join (sep : string) (l : list string) : string :=
  match l with
  | [] => ""
  | [x] => x
  | x :: l' => x +:+ sep +:+ join sep l'
  end.

Definition tab : string := String "009" "".
Definition nl : string := String "010" "".

End Str.

(** ** read_rsids *)

(** What one line contributes: nothing when blank, else the stripped
    line, with "rs" put in front unless it starts with "rs". *)
Definition normalize_id (line : string) : option string :=
  let s := Str.strip line in
  if decide (s = "") then None
  else Some (if Str.startswith s "rs" then s else "rs" +:+ s).

(** One iteration of the [for line in f] loop, on the pair [(seen, out)]. *)
Definition read_rsids_step (st : gset string * list string) (line : string)
  : gset string * list string :=
  match normalize_id line with
  | None => st
  | Some s =>
      if decide (s ∈ st.1) then st
      else ({[s]} ∪ st.1, st.2 ++ [s])
  end.

Definition read_rsids_loop (lines : list string) (st : gset string * list string)
  : gset string * list string :=
  foldl read_rsids_step st lines.

(** [read_rsids], on the lines of the input file. *)
Definition read_rsids (lines : list string) : list string :=
  (read_rsids_loop lines (∅, [])).2.

(** ** chunks *)

(** [range(0, stop, step)] for [step > 0]. *)
Definition range0 (stop step : nat) : list nat :=
  (λ k, k * step) <$> seq 0 ((stop + step - 1) / step).

(** [list(chunks(seq, n))]. [range] raises [ValueError] on a zero step
    ([None]) and is empty on a negative one. *)
Definition chunks (sq : list string) (n : Z) : option (list (list string)) :=
  if decide (n = 0)%Z then None
  else if decide (n < 0)%Z then Some []
  else Some ((λ i, take (Z.to_nat n) (drop i sq))
               <$> range0 (length sq) (Z.to_nat n)).

(** ** normalize_chr *)

Definition mito_names : list string := ["M"; "MT"; "MtDNA"; "mt"; "MTDNA"].

(** [c[3:]] when [c.lower()] starts with "chr", else [c]. *)
Definition chr_stripped (chrom : string) : string :=
  if Str.startswith (Str.lower chrom) "chr" then Str.drop 3 chrom else chrom.

Definition normalize_chr (chrom : string) : string :=
  let c := chr_stripped chrom in
  if decide (c ∈ mito_names) then "M" else c.

(** The chromosome names of the module docstring: 1..22, X, Y, M. *)
Definition canonical_chroms : list string :=
  ["1"; "2"; "3"; "4"; "5"; "6"; "7"; "8"; "9"; "10"; "11"; "12"; "13"; "14";
   "15"; "16"; "17"; "18"; "19"; "20"; "21"; "22"; "X"; "Y"; "M"].

(** ** Orderings used by [sorted] *)

(** Python compares tuples at the first component where they differ. *)
Section lex.
Context {A B : Type} (RA : relation A) (RB : relation B).

Definition lex_le : relation (A * B) :=
  λ x y, (x.1 ≠ y.1 ∧ RA x.1 y.1) ∨ (x.1 = y.1 ∧ RB x.2 y.2).

#[global] Instance lex_le_dec `{!EqDecision A, !RelDecision RA, !RelDecision RB} :
  RelDecision lex_le.
Proof. intros x y. unfold lex_le. apply _. Defined.

End lex.

(** A coordinate tuple [(CHR, POS, REF, ALT)]. *)
Definition coord : Type := string * Z * string * string.

Definition coord_le : relation coord :=
  lex_le (lex_le (lex_le String.le Z.le) String.le) String.le.

#[global] Instance coord_le_dec : RelDecision coord_le.
Proof. unfold coord_le. apply _. Defined.

(** The order in which a [set] is iterated is fixed by the interpreter's
    hashing, not by the program: any enumeration of the elements. *)
Record hash_order := HashOrder {
  iter_str : gset string → list string;
  iter_str_perm : ∀ s, iter_str s ≡ₚ elements s;
  iter_coord : gset coord → list coord;
  iter_coord_perm : ∀ s, iter_coord s ≡ₚ elements s;
}.

(** [sorted(s)] for a set of strings and for a set of tuples. *)
Definition sorted_strs (H : hash_order) (s : gset string) : list string :=
  merge_sort String.le (iter_str H s).
Definition sorted_coords (H : hash_order) (s : gset coord) : list coord :=
  merge_sort coord_le (iter_coord H s).

(** ** Response entries *)

(** One element of an entry's ["mappings"] list, with the fields the
    program reads; [None] is an absent key ([m.get] gives [None]). *)
Record mapping := Mapping {
  assembly_name : option string;
  seq_region_name : option string;
  start : option Z;
  allele_string : option string;
}.

(** One value of the response object: does it have the key ["error"], its
    ["mappings"] list if any, and whether it has any other key. *)
Record entry := Entry {
  has_error : bool;
  mappings : option (list mapping);
  has_other : bool;
}.

(** Truthiness of a dict: it is not empty. *)
Definition entry_truthy (e : entry) : bool :=
  has_error e || bool_decide (is_Some (mappings e)) || has_other e.

Definition str_truthy (s : string) : bool := bool_decide (s ≠ "").
Definition int_truthy (z : Z) : bool := bool_decide (z ≠ 0%Z).

(** ** parse_grch38_mappings *)

(** The tuples one mapping appends to [out] (body of the [for m] loop). *)
Definition mapping_rows (m : mapping) : list coord :=
  if decide (assembly_name m ≠ Some "GRCh38") then @nil coord
  else
    match seq_region_name m, start m, allele_string m with
    | Some chrom, Some pos, Some als =>
        if negb (str_truthy chrom) || negb (int_truthy pos)
           || negb (str_truthy als) then []
        else
          let chrom := normalize_chr chrom in
          let alleles := Str.split "/" als in
          let ref := hd "" alleles in
          let alts := if decide (1 < length alleles)%nat then tail alleles else [] in
          match alts with
          | [] => [(chrom, pos, ref, ref)]
          | _ => (λ alt, (chrom, pos, ref, alt)) <$> alts
          end
    | _, _, _ => []
    end.

(** The list [out] before de-duplication. *)
Definition parse_out (e : entry) : list coord :=
  default [] (mappings e) ≫= mapping_rows.

Definition parse_grch38_mappings (H : hash_order) (e : entry) : list coord :=
  sorted_coords H (list_to_set (parse_out e)).

(** Two iteration orders: the one of [elements], and its reverse. *)
Program Definition elements_order : hash_order :=
  {| iter_str := elements; iter_coord := elements |}.
Solve Obligations with done.

Program Definition reverse_order : hash_order :=
  {| iter_str s := reverse (elements s); iter_coord s := reverse (elements s) |}.
Next Obligation. intros s. apply reverse_Permutation. Qed.
Next Obligation. intros s. apply reverse_Permutation. Qed.

(** ** Floats *)

(** A Python [float]: a finite number (every finite double is a
    rational), an infinity or a NaN. *)
Inductive pyfloat :=
  | Finite (q : Qc)
  | PlusInf
  | MinusInf
  | NaN.

(** [a < b] on floats: false as soon as one side is a NaN. *)
Definition float_lt (a b : pyfloat) : bool :=
  match a, b with
  | Finite x, Finite y => bool_decide (x < y)%Qc
  | Finite _, PlusInf | MinusInf, Finite _ | MinusInf, PlusInf => true
  | _, _ => false
  end.

(** [max(a, b)] and [min(a, b)] of Python: the first argument unless the
    second is strictly greater (smaller); [py_max] and [py_min] are the
    two on finite numbers. *)
Definition float_max (a b : pyfloat) : pyfloat := if float_lt a b then b else a.
Definition py_max (a b : Qc) : Qc := if decide (a < b)%Qc then b else a.
Definition py_min (a b : Qc) : Qc := if decide (b < a)%Qc then b else a.

(** The constants [0.25] and [10.0] of [backoff_sleep], and the [0.1] of
    the pause between batches: the double nearest to one tenth,
    3602879701896397 / 2^55. *)
Definition quarter : Qc := Q2Qc (1 # 4).
Definition ten : Qc := Q2Qc 10.
Definition tenth : Qc := Q2Qc (3602879701896397 # 36028797018963968).

(** ** The network and the clock *)

(** What [float(ra)] makes of a non-empty [Retry-After] header: a float,
    or a [ValueError] (on an HTTP-date, for instance). *)
Inductive reading :=
  | Float (x : pyfloat)
  | NotFloat.

(** What one [session.post] does: it raises [requests.RequestException],
    or it returns a response with a status code, its [Retry-After] header
    ([None] when the header is absent or empty, that is when [ra] is
    falsy) and its body ([None] when the body is not JSON, else the
    mapping that [resp.json()] returns). *)
Inductive outcome :=
  | NetFail
  | Response (status_code : Z) (retry_after : option reading)
      (body : option (gmap string entry)).

(** The exceptions of the program: [RequestException] from
    [session.post], [HTTPError] from [raise_for_status], [JSONDecodeError]
    from [resp.json()], [ValueError] from [float] and from [range] on a
    step of 0, [OverflowError] from [time.sleep] and from the conversion
    of [2 ** attempt] to a float, [SystemExit] from [main]. *)
Inductive exn :=
  | RequestException
  | HTTPError (status_code : Z)
  | JSONDecodeError
  | ValueError
  | OverflowError
  | SystemExit.

(** The world: what the network will do next, the delays slept so far and
    the payloads posted so far. *)
Record world := World {
  net : list outcome;
  slept : list Qc;
  posted : list (list string);
}.

(** A call returns, raises, or outlives the script of the network. *)
Inductive result (A : Type) :=
  | Ret (a : A) (w : world)
  | Raise (e : exn) (w : world)
  | Stuck (w : world).
Arguments Ret {A} a w.
Arguments Raise {A} e w.
Arguments Stuck {A} w.

Definition M (A : Type) : Type := world → result A.

Definition ret {A} (a : A) : M A := λ w, Ret a w.
Definition raise {A} (e : exn) : M A := λ w, Raise e w.
Definition bind {A B} (m : M A) (k : A → M B) : M B :=
  λ w, match m w with
       | Ret a w' => k a w'
       | Raise e w' => Raise e w'
       | Stuck w' => Stuck w'
       end.

Notation "'let*' x ':=' m 'in' k" := (bind m (λ x, k))
  (at level 10, x name, m at level 100, k at level 200).

(** [time.sleep] turns its argument into a signed 64-bit count of
    nanoseconds: 2^63 ns, about 9.2e9 s, is the first delay that does not
    fit. *)
Definition sleep_limit : Qc := Q2Qc (9223372036854775808 # 1000000000).

(** [time.sleep(d)]: [ValueError] on a NaN, [OverflowError] on a delay
    that does not fit, [ValueError] on a negative delay; otherwise the
    delay is slept. *)
Definition sleep (d : pyfloat) : M () :=
  λ w, match d with
       | NaN => Raise ValueError w
       | PlusInf | MinusInf => Raise OverflowError w
       | Finite q =>
           if decide (- sleep_limit ≤ q ∧ q < sleep_limit)%Qc then
             if decide (q < 0)%Qc then Raise ValueError w
             else Ret () (World (net w) (slept w ++ [q]) (posted w))
           else Raise OverflowError w
       end.

(** ** backoff_sleep *)

(** [2 ** attempt] is an integer; [0.25 * (2 ** attempt)] converts it to a
    float, which raises [OverflowError] from 2^1024 on. *)
Definition backoff_sleep (attempt : nat) (retry_after : option pyfloat) : M () :=
  let* delay :=
    match retry_after with
    | Some ra => ret (float_max (Finite quarter) ra)
    | None =>
        if decide (attempt < 1024)%nat
        then ret (Finite (py_min ten (quarter * Q2Qc 2 ^ attempt)%Qc))
        else raise OverflowError
    end in
  sleep delay.

(** ** post_variation_batch *)

(** [Response.raise_for_status] of the requests library: raises
    [HTTPError] for a status in 400..599 and returns otherwise. *)
Definition raise_for_status (status_code : Z) : option exn :=
  if decide (400 ≤ status_code < 600)%Z then Some (HTTPError status_code)
  else None.

Definition retry_statuses : list Z := [429; 500; 502; 503; 504]%Z.

(** [float(ra) if ra else None] *)
Definition float_if (ra : option reading) : M (option pyfloat) :=
  match ra with
  | None => ret None
  | Some (Float x) => ret (Some x)
  | Some NotFloat => raise ValueError
  end.

(** The [while True] loop: one iteration per outcome of the script. The
    payload is logged at every [session.post]. Neither [resp.json()], nor
    [float(ra)], nor [backoff_sleep] is inside the [try]: what they raise
    leaves the loop. *)
Fixpoint post_loop (max_retries : nat) (ids : list string) (attempt : nat)
    (script : list outcome) (sl : list Qc) (po : list (list string))
  : result (gmap string entry) :=
  match script with
  | [] => Stuck (World [] sl po)
  | o :: script =>
      let po := po ++ [ids] in
      match o with
      | NetFail =>
          if decide (max_retries ≤ attempt)%nat
          then Raise RequestException (World script sl po)
          else
            let attempt := S attempt in
            match backoff_sleep attempt None (World script sl po) with
            | Ret _ w => post_loop max_retries ids attempt script (slept w) po
            | Raise e w => Raise e w
            | Stuck w => Stuck w
            end
      | Response status_code ra body =>
          if decide (status_code = 200)%Z then
            match body with
            | Some data => Ret data (World script sl po)
            | None => Raise JSONDecodeError (World script sl po)
            end
          else if decide (status_code ∈ retry_statuses) then
            match (if decide (max_retries ≤ attempt)%nat
                   then raise_for_status status_code else None) with
            | Some e => Raise e (World script sl po)
            | None =>
                let attempt := S attempt in
                match (let* x := float_if ra in backoff_sleep attempt x)
                        (World script sl po) with
                | Ret _ w => post_loop max_retries ids attempt script (slept w) po
                | Raise e w => Raise e w
                | Stuck w => Stuck w
                end
            end
          else
            match raise_for_status status_code with
            | Some e => Raise e (World script sl po)
            | None => post_loop max_retries ids attempt script sl po
            end
      end
  end.

Definition post_variation_batch (ids : list string) (max_retries : nat)
  : M (gmap string entry) :=
  λ w, post_loop max_retries ids 0 (net w) (slept w) (posted w).

Definition default_max_retries : nat := 5.

(** ** main *)

Record run_state := RunState {
  found : gset string;
  missing : gset string;
  id_rows : gset string;
  coord_rows : gset string;
  range_rows : gset string;
  ambig_rows : gset string;
}.

Definition empty_state : run_state := RunState ∅ ∅ ∅ ∅ ∅ ∅.

Definition add_missing (rs_id : string) (st : run_state) : run_state :=
  RunState (found st) ({[rs_id]} ∪ missing st) (id_rows st) (coord_rows st)
    (range_rows st) (ambig_rows st).

(** [f"{c}:{p}:{r}:{a}"] *)
Definition colon_row (t : coord) : string :=
  let '(c, p, r, a) := t in
  c +:+ ":" +:+ pretty p +:+ ":" +:+ r +:+ ":" +:+ a.

(** Body of [for chrom, pos, ref, alt in mappings]. *)
Definition save_row (rs_id : string) (st : run_state) (t : coord) : run_state :=
  let '(chrom, pos, ref, alt) := t in
  RunState
    ({[rs_id]} ∪ found st)
    (missing st)
    ({[colon_row t]} ∪ id_rows st)
    ({[rs_id +:+ Str.tab +:+ chrom +:+ Str.tab +:+ pretty pos +:+ Str.tab
         +:+ ref +:+ Str.tab +:+ alt]} ∪ coord_rows st)
    ({[chrom +:+ Str.tab +:+ pretty pos +:+ Str.tab +:+ pretty pos
         +:+ Str.tab +:+ rs_id]} ∪ range_rows st)
    (ambig_rows st).

Definition ambig_row (rs_id : string) (maps : list coord) : string :=
  rs_id +:+ Str.tab +:+ pretty (length maps) +:+ Str.tab
    +:+ Str.join ";" (colon_row <$> maps).

Definition add_ambig (rs_id : string) (maps : list coord) (st : run_state)
  : run_state :=
  RunState (found st) (missing st) (id_rows st) (coord_rows st)
    (range_rows st) ({[ambig_row rs_id maps]} ∪ ambig_rows st).

(** Body of [for rs_id in batch_rsids]. *)
Definition process_id (H : hash_order) (data : gmap string entry)
    (st : run_state) (rs_id : string) : run_state :=
  match data !! rs_id with
  | None => add_missing rs_id st
  | Some e =>
      if negb (entry_truthy e) || has_error e then add_missing rs_id st
      else
        let maps := parse_grch38_mappings H e in
        match maps with
        | [] => add_missing rs_id st
        | _ =>
            let st := foldl (save_row rs_id) st maps in
            if decide (1 < length maps)%nat then add_ambig rs_id maps st
            else st
        end
  end.

(** Body of [for batch_rsids in chunks(rsids, args.batch)]. *)
Definition process_batch (H : hash_order) (st : run_state)
    (batch_rsids : list string) : M run_state :=
  let* data := post_variation_batch batch_rsids default_max_retries in
  let st := foldl (process_id H data) st batch_rsids in
  let* _u := sleep (Finite tenth) in
  ret st.

Fixpoint main_loop (H : hash_order) (batches : list (list string))
    (st : run_state) : M run_state :=
  match batches with
  | [] => ret st
  | b :: batches =>
      let* st := process_batch H st b in
      main_loop H batches st
  end.

(** [missing.update(set(rsids) - found)] *)
Definition finalize (rsids : list string) (st : run_state) : run_state :=
  RunState (found st) (missing st ∪ (list_to_set rsids ∖ found st))
    (id_rows st) (coord_rows st) (range_rows st) (ambig_rows st).

(** The text written by [for row in sorted(rows): f.write(row + "\n")]. *)
Definition write_rows (H : hash_order) (rows : gset string) : string :=
  foldr (λ row acc, row +:+ Str.nl +:+ acc) "" (sorted_strs H rows).

(** The five data files and the totals of the summary line. *)
Record outputs := Outputs {
  rsid_to_coord_tsv : string;
  ids_to_extract_txt : string;
  rsid_range : string;
  missing_rsids_txt : string;
  ambiguous_rsids_tsv : string;
  totals : nat * nat * nat;
}.

Definition write_outputs (H : hash_order) (rsids : list string)
    (st : run_state) : outputs :=
  {| rsid_to_coord_tsv := write_rows H (coord_rows st);
     ids_to_extract_txt := write_rows H (id_rows st);
     rsid_range := write_rows H (range_rows st);
     missing_rsids_txt := write_rows H (missing st);
     ambiguous_rsids_tsv := write_rows H (ambig_rows st);
     totals := (length rsids, size (found st), size (missing st)) |}.

(** The run up to the final state, before any file is written. *)
Definition run (H : hash_order) (lines : list string) (batch : Z)
  : M (list string * run_state) :=
  let rsids := read_rsids lines in
  if decide (rsids = []) then raise SystemExit
  else
    match chunks rsids batch with
    | None => raise ValueError
    | Some batches =>
        let* st := main_loop H batches empty_state in
        ret (rsids, finalize rsids st)
    end.

Definition main (H : hash_order) (lines : list string) (batch : Z) : M outputs :=
  let* r := run H lines batch in
  ret (write_outputs H r.1 r.2).

(** ** Notions used in the statements *)

(** The character [c] occurs in [s]. *)
Fixpoint occurs (c : ascii) (s : string) : Prop :=
  match s with
  | "" => False
  | String d s' => c = d ∨ occurs c s'
  end.

(** A mapping is kept when it is on GRCh38 and its three fields are truthy. *)
Definition kept (m : mapping) (chrom : string) (pos : Z) (als : string) : Prop :=
  assembly_name m = Some "GRCh38" ∧
  seq_region_name m = Some chrom ∧ chrom ≠ "" ∧
  start m = Some pos ∧ pos ≠ 0%Z ∧
  allele_string m = Some als ∧ als ≠ "".

(** The entry of the multi-allelic example. *)
Definition entry_A_G_T (other : bool) : entry :=
  Entry false
    (Some [Mapping (Some "GRCh38") (Some "chr7") (Some 117559590%Z) (Some "A/G/T")])
    other.

(** A transient outcome: a network failure, or a status of the retried
    group. *)
Definition transient (o : outcome) : Prop :=
  match o with
  | NetFail => True
  | Response status_code _ _ => status_code ∈ retry_statuses
  end.

(** What a failed outcome announces: its [Retry-After] header, if any. *)
Definition announced (o : outcome) : option reading :=
  match o with
  | Response _ ra _ => ra
  | NetFail => None
  end.

(** A failure whose announcement the client can honour: nothing, or a
    number N for which [max(0.25, N)] is a delay that [time.sleep]
    accepts. Not so an announcement that is no number, and a number of
    2^63 ns or more. *)
Definition honourable (o : outcome) : Prop :=
  match announced o with
  | None | Some (Float (MinusInf | NaN)) => True
  | Some (Float (Finite n)) => (n < sleep_limit)%Qc
  | Some (Float PlusInf) | Some NotFloat => False
  end.

(** The delay of the retry numbered [attempt] after an honourable failure:
    [max(0.25, N)] when it announces the number N (that is 0.25 when N is
    minus infinity or a NaN), and [min(10.0, 0.25 * 2^attempt)] when it
    announces nothing. After a failure that is not honourable there is no
    retry, and the value is immaterial. *)
Definition retry_delay (attempt : nat) (o : outcome) : Qc :=
  match announced o with
  | None => py_min ten (quarter * Q2Qc 2 ^ attempt)%Qc
  | Some (Float (Finite n)) => py_max quarter n
  | Some (Float (MinusInf | NaN)) => quarter
  | Some (Float PlusInf) | Some NotFloat => quarter
  end.

(** The exception that a transient outcome surfaces as. *)
Definition failure_of (o : outcome) : exn :=
  match o with
  | NetFail => RequestException
  | Response status_code _ _ => HTTPError status_code
  end.

(** The delays slept for a run of honourable failures, the counter being
    [attempt] before the first of them. *)
Fixpoint retry_delays (attempt : nat) (fails : list outcome) : list Qc :=
  match fails with
  | [] => []
  | o :: fails =>
      retry_delay (S attempt) o :: retry_delays (S attempt) fails
  end.

(** The state after folding in the answers to a list of batches. *)
Definition aggregate (H : hash_order) (st : run_state)
    (answers : list (list string * gmap string entry)) : run_state :=
  foldl (λ st a, foldl (process_id H a.2) st a.1) st answers.

(** The part of the script that answers one batch: some failures, then a
    200 response. *)
Definition batch_script (s : list outcome * gmap string entry) : list outcome :=
  s.1 ++ [Response 200 None (Some s.2)].

(** A well-behaved script: each batch fails at most [default_max_retries]
    times, transiently and honourably, before its 200 response. *)
Definition tolerable (s : list outcome * gmap string entry) : Prop :=
  Forall transient s.1 ∧ Forall honourable s.1 ∧
  (length s.1 ≤ default_max_retries)%nat.

(** An identifier whose answer is absent, falsy, an error, or without
    GRCh38 tuples. *)
Definition unmapped (H : hash_order) (data : gmap string entry) (x : string)
  : Prop :=
  match data !! x with
  | None => True
  | Some e =>
      entry_truthy e = false ∨ has_error e = true ∨
      parse_grch38_mappings H e = []
  end.

(** The invariant of the loops: the identifiers processed so far are
    split between [found] and [missing]. *)
Definition split_inv (st : run_state) (seen : list string) : Prop :=
  found st ∪ missing st = list_to_set seen ∧ found st ## missing st.

(** A run on three lines in batches of two: the first batch is answered
    after a 429, the second at once. *)
Definition demo_lines : list string := ["1"; "rs2" +:+ Str.nl; "rs3"; "rs2"].

Definition demo_body : gmap string entry :=
  {[ "rs1" := entry_A_G_T true; "rs2" := Entry true None false ]}.

Definition demo_world : world :=
  World [Response 429 None None; Response 200 None (Some demo_body);
         Response 200 None (Some ∅)] [] [].

(** The final state and world of the run on [demo_lines]. *)
Definition demo_state : run_state :=
  finalize (read_rsids demo_lines)
    (aggregate elements_order empty_state
       [(["rs1"; "rs2"], demo_body); (["rs3"], ∅)]).

Definition demo_end : world :=
  World [] [retry_delay 1 NetFail; tenth; tenth]
    [["rs1"; "rs2"]; ["rs1"; "rs2"]; ["rs3"]].

(** A string without white space at either end. *)
Definition clean_ends (s : string) : Prop :=
  Str.lstrip s = s ∧ Str.rstrip s = s.

(** The world in which a call ended. *)
Definition world_of {A} (r : result A) : world :=
  match r with
  | Ret _ w | Raise _ w | Stuck w => w
  end.

(** Why a call of the client with ceiling [max_retries] may raise [e] on
    the outcome [o]: a network failure as [RequestException]; a status of
    400..599 as [HTTPError]; a 200 response whose body is not JSON as
    [JSONDecodeError]; a failure of the retried group whose announcement
    is no number as [ValueError]; a transient failure after which no sleep
    is possible (a delay too long for [time.sleep], or a counter of 1024
    or more) as [OverflowError]. *)
Definition raised_on (max_retries : nat) (e : exn) (o : outcome) : Prop :=
  match e with
  | RequestException => o = NetFail
  | HTTPError st => (400 ≤ st < 600)%Z ∧ ∃ ra body, o = Response st ra body
  | JSONDecodeError => ∃ ra, o = Response 200 ra None
  | ValueError =>
      ∃ st body, st ∈ retry_statuses ∧ o = Response st (Some NotFloat) body
  | OverflowError =>
      transient o ∧ announced o ≠ Some NotFloat ∧
      (honourable o → (1024 ≤ max_retries)%nat)
  | SystemExit => False
  end.

(** Why a transient failure met below the ceiling may end the call with
    [e] instead of being retried: its announcement is no number
    ([ValueError]), or it is a number too long for [time.sleep]
    ([OverflowError]). *)
Definition escapes (e : exn) (o : outcome) : Prop :=
  transient o ∧
  match e with
  | ValueError => announced o = Some NotFloat
  | OverflowError => ¬ honourable o ∧ announced o ≠ Some NotFloat
  | _ => False
  end.

(** What a call of the client, entered with counter [attempt], may have
    done when it ends with [r]: it posted [ids] once for each of the [k]
    outcomes it consumed, and nothing else; it slept [extra], at most
    [max_retries - attempt] delays, each of at least 0.25 s and followed
    by a new post; it returned the body of the 200 response it consumed
    last, raised for one of the reasons of [raised_on] on the outcome it
    consumed last, or ran out of script. *)
Definition client_effects (max_retries : nat) (ids : list string)
    (attempt : nat) (script : list outcome) (sl : list Qc)
    (po : list (list string)) (r : result (gmap string entry)) : Prop :=
  ∃ (k : nat) (extra : list Qc),
    posted (world_of r) = po ++ replicate k ids ∧
    net (world_of r) = drop k script ∧
    (k ≤ length script)%nat ∧
    slept (world_of r) = sl ++ extra ∧
    (attempt + length extra ≤ max_retries)%nat ∧
    Forall (λ d, (quarter ≤ d)%Qc ∧ (d < sleep_limit)%Qc) extra ∧
    match r with
    | Ret body _ =>
        (length extra < k)%nat ∧
        ∃ ra, script !! (k - 1)%nat = Some (Response 200 ra (Some body))
    | Raise e _ =>
        (length extra < k)%nat ∧
        ∃ o, script !! (k - 1)%nat = Some o ∧ raised_on max_retries e o
    | Stuck _ => (length extra ≤ k)%nat ∧ k = length script
    end.

(** The lines written for one tuple of one identifier:
    [f"{rs_id}\t{chrom}\t{pos}\t{ref}\t{alt}"] and
    [f"{chrom}\t{pos}\t{pos}\t{rs_id}"]. *)
Definition coord_row (p : string * coord) : string :=
  let '(rs_id, (chrom, pos, ref, alt)) := p in
  rs_id +:+ Str.tab +:+ chrom +:+ Str.tab +:+ pretty pos +:+ Str.tab
    +:+ ref +:+ Str.tab +:+ alt.

Definition range_row (p : string * coord) : string :=
  let '(rs_id, (chrom, pos, ref, alt)) := p in
  chrom +:+ Str.tab +:+ pretty pos +:+ Str.tab +:+ pretty pos
    +:+ Str.tab +:+ rs_id.

(** [found] and the three row sets are the projections of one list of
    (identifier, tuple) pairs. *)
Definition projections (st : run_state) (P : list (string * coord)) : Prop :=
  found st = list_to_set P.*1 ∧
  coord_rows st = list_to_set (coord_row <$> P) ∧
  id_rows st = list_to_set ((λ p, colon_row p.2) <$> P) ∧
  range_rows st = list_to_set (range_row <$> P).

(** The delays and the payloads of a run on a well-behaved script: for
    each batch its backoff delays and then the pause of 0.1 s; each batch
    once for each of its failures and once more. *)
Definition script_sleeps (ss : list (list outcome * gmap string entry))
  : list Qc :=
  ss ≫= λ s, retry_delays 0 s.1 ++ [tenth].

Definition script_posts (bs : list (list string))
    (ss : list (list outcome * gmap string entry)) : list (list string) :=
  mjoin (zip_with (λ b s, replicate (S (length s.1)) b) bs ss).

(** Field-wise union of two states. *)
Definition state_union (a b : run_state) : run_state :=
  RunState (found a ∪ found b) (missing a ∪ missing b)
    (id_rows a ∪ id_rows b) (coord_rows a ∪ coord_rows b)
    (range_rows a ∪ range_rows b) (ambig_rows a ∪ ambig_rows b).

(** * Properties *)

(** ** The orderings are total orders *)

Section lex_order.
Context {A B : Type} (RA : relation A) (RB : relation B).

#[global] Instance lex_le_po `{!PartialOrder RA, !PartialOrder RB} :
  PartialOrder (lex_le RA RB).
Proof.
  split; [split|].
  - intros [a b]. right. simpl. split; reflexivity.
  - intros [a1 b1] [a2 b2] [a3 b3]; unfold lex_le; simpl.
    intros [[Hn1 H1]|[-> H1]] [[Hn2 H2]|[-> H2]]; auto.
    + left. split; [|by etrans].
      intros ->. apply Hn1. by apply (anti_symm RA).
    + right. split; [done|by etrans].
  - intros [a1 b1] [a2 b2]; unfold lex_le; simpl.
    intros [[Hn1 H1]|[-> H1]] [[Hn2 H2]|[E H2]]; try congruence.
    + exfalso. apply Hn1. by apply (anti_symm RA).
    + f_equal. by apply (anti_symm RB).
Qed.

#[global] Instance lex_le_total `{!EqDecision A, !Total RA, !Total RB} :
  Total (lex_le RA RB).
Proof.
  intros [a1 b1] [a2 b2]; unfold lex_le; simpl.
  destruct (decide (a1 = a2)) as [->|Hne].
  - destruct (total RB b1 b2); auto.
  - destruct (total RA a1 a2); auto.
Qed.
End lex_order.

#[global] Instance coord_le_po : PartialOrder coord_le.
Proof. unfold coord_le. apply _. Qed.
#[global] Instance coord_le_total : Total coord_le.
Proof. unfold coord_le. apply _. Qed.

(** ** Examples *)

Example read_rsids_ex :
  read_rsids ["rs5"; " 7 " +:+ Str.nl; Str.nl; "rs7"; "RS9"] = ["rs5"; "rs7"; "rsRS9"].
Proof. vm_compute. reflexivity. Qed.

Example chunks_ex :
  chunks ["a"; "b"; "c"; "d"; "e"] 2 = Some [["a"; "b"]; ["c"; "d"]; ["e"]].
Proof. vm_compute. reflexivity. Qed.

Example normalize_chr_ex :
  normalize_chr <$> ["chr7"; "CHRx"; "MT"; "chrM"; "mt"; "m"; "GL000219.1"]
  = ["7"; "x"; "M"; "M"; "M"; "m"; "GL000219.1"].
Proof. vm_compute. reflexivity. Qed.

Example parse_ex :
  parse_grch38_mappings elements_order
    (Entry false (Some [Mapping (Some "GRCh37") (Some "7") (Some 5%Z) (Some "A/C");
                        Mapping (Some "GRCh38") (Some "chr7") (Some 117559590%Z) (Some "A/T/G");
                        Mapping (Some "GRCh38") (Some "7") (Some 117559590%Z) (Some "A/G");
                        Mapping (Some "GRCh38") (Some "MT") (Some 12%Z) (Some "C");
                        Mapping (Some "GRCh38") (Some "3") (Some 0%Z) (Some "C/T")]) true)
  = [("7", 117559590%Z, "A", "G"); ("7", 117559590%Z, "A", "T"); ("M", 12%Z, "C", "C")].
Proof. vm_compute. reflexivity. Qed.

(** ** The identifier list *)

Lemma read_rsids_step_inv seen out line :
  seen = list_to_set out → NoDup out →
  ∃ seen' out', read_rsids_step (seen, out) line = (seen', out') ∧
    seen' = list_to_set out' ∧ NoDup out' ∧
    ∀ x, x ∈ out' ↔ x ∈ out ∨ normalize_id line = Some x.
Proof.
  intros -> Hnd. unfold read_rsids_step. simpl.
  destruct (normalize_id line) as [s|].
  - destruct (decide (s ∈ list_to_set out)) as [Hin|Hnin].
    + eexists _, _. split_and!; [done..|].
      apply elem_of_list_to_set in Hin. intros x. split; [auto|].
      intros [?|[= <-]]; done.
    + eexists _, _. split_and!; [done| | |].
      * rewrite list_to_set_app_L. simpl. set_solver.
      * apply NoDup_app. split_and!; [done| |apply NoDup_singleton].
        intros x Hx ->%list_elem_of_singleton. apply Hnin.
        by apply elem_of_list_to_set.
      * intros x. rewrite elem_of_app, list_elem_of_singleton.
        split; (intros [?|E]; [by left|right; congruence]).
  - eexists _, _. split_and!; [done..|]. intros x. split; [auto|].
    intros [?|?]; done.
Qed.

Lemma read_rsids_loop_inv lines seen out :
  seen = list_to_set out → NoDup out →
  ∃ seen' out', read_rsids_loop lines (seen, out) = (seen', out') ∧
    seen' = list_to_set out' ∧ NoDup out' ∧
    ∀ x, x ∈ out' ↔ x ∈ out ∨ ∃ line, line ∈ lines ∧ normalize_id line = Some x.
Proof.
  revert seen out. induction lines as [|line lines IH]; intros seen out Hs Hnd.
  - exists seen, out. split_and!; [done..|]. intros x. split; [auto|].
    intros [?|(l & Hl & _)]; [done|]. by apply elem_of_nil in Hl.
  - destruct (read_rsids_step_inv seen out line Hs Hnd)
      as (seen1 & out1 & E1 & Hs1 & Hnd1 & H1).
    destruct (IH seen1 out1 Hs1 Hnd1) as (seen2 & out2 & E2 & Hs2 & Hnd2 & H2).
    exists seen2, out2. unfold read_rsids_loop in *. simpl. rewrite E1, E2.
    split_and!; [done..|]. intros x. rewrite H2, H1. split.
    + intros [[?|?]|(l & Hl & Hx)]; [auto| |].
      * right. exists line. split; [by left|done].
      * right. exists l. split; [by right|done].
    + intros [?|(l & Hl & Hx)]; [auto|].
      apply elem_of_cons in Hl as [->|Hl]; [auto|]. right. eauto.
Qed.

Lemma read_rsids_NoDup lines : NoDup (read_rsids lines).
Proof.
  unfold read_rsids.
  destruct (read_rsids_loop_inv lines ∅ []) as (? & ? & -> & _ & H & _);
    [done|constructor|done].
Qed.

Lemma elem_of_read_rsids lines x :
  x ∈ read_rsids lines ↔ ∃ line, line ∈ lines ∧ normalize_id line = Some x.
Proof.
  unfold read_rsids.
  destruct (read_rsids_loop_inv lines ∅ []) as (? & ? & -> & _ & _ & H);
    [done|constructor|].
  simpl. rewrite H. split; [|auto]. intros [Hx|?]; [|done]. by apply elem_of_nil in Hx.
Qed.

(** ** Batches *)

Lemma concat_range_take (sq : list string) (m k : nat) :
  mjoin ((λ i, take m (drop i sq)) <$> ((λ j, j * m) <$> seq 0 k))
  = take (k * m) sq.
Proof.
  induction k as [|k IH]; [done|].
  rewrite seq_S, !fmap_app, join_app, IH. simpl.
  rewrite app_nil_r.
  replace (m + k * m) with (k * m + m) by lia.
  by rewrite take_take_drop.
Qed.

Lemma chunks_concat (sq : list string) (n : Z) bs :
  (0 < n)%Z → chunks sq n = Some bs → mjoin bs = sq.
Proof.
  intros Hn. unfold chunks. repeat case_decide; try lia. intros [= <-].
  unfold range0. rewrite concat_range_take.
  apply take_ge.
  set (m := Z.to_nat n). assert (0 < m) by lia.
  pose proof (Nat.div_mod_eq (length sq + m - 1) m) as Hd.
  pose proof (Nat.mod_upper_bound (length sq + m - 1) m). nia.
Qed.

Lemma chunks_positive_total (sq : list string) (n : Z) :
  (0 < n)%Z → is_Some (chunks sq n).
Proof. intros. unfold chunks. repeat case_decide; try lia. eauto. Qed.

(** ** Sorted iteration of a set *)

Section sorted_set.
Context `{Countable A} (R : relation A).
Context `{!RelDecision R, !PartialOrder R, !Total R}.

Lemma merge_sort_Permutation_eq (l1 l2 : list A) :
  l1 ≡ₚ l2 → merge_sort R l1 = merge_sort R l2.
Proof.
  intros E. apply (StronglySorted_unique R).
  - apply StronglySorted_merge_sort; apply _.
  - apply StronglySorted_merge_sort; apply _.
  - by rewrite !merge_sort_Permutation.
Qed.

Lemma merge_sort_set (it : list A) (s : gset A) :
  it ≡ₚ elements s →
  StronglySorted R (merge_sort R it) ∧ NoDup (merge_sort R it) ∧
  ∀ x, x ∈ merge_sort R it ↔ x ∈ s.
Proof.
  intros E. split_and!.
  - apply StronglySorted_merge_sort; apply _.
  - rewrite merge_sort_Permutation, E. apply NoDup_elements.
  - intros x. by rewrite merge_sort_Permutation, E, elem_of_elements.
Qed.
End sorted_set.

Lemma sorted_strs_order H s : sorted_strs H s = sorted_strs elements_order s.
Proof. apply merge_sort_Permutation_eq; [apply _..|]. apply iter_str_perm. Qed.

Lemma sorted_coords_order H s : sorted_coords H s = sorted_coords elements_order s.
Proof. apply merge_sort_Permutation_eq; [apply _..|]. apply iter_coord_perm. Qed.

Lemma sorted_strs_spec H s :
  StronglySorted String.le (sorted_strs H s) ∧ NoDup (sorted_strs H s) ∧
  ∀ x, x ∈ sorted_strs H s ↔ x ∈ s.
Proof. apply merge_sort_set; [apply _..|]. apply iter_str_perm. Qed.

Lemma sorted_coords_spec H s :
  StronglySorted coord_le (sorted_coords H s) ∧ NoDup (sorted_coords H s) ∧
  ∀ x, x ∈ sorted_coords H s ↔ x ∈ s.
Proof. apply merge_sort_set; [apply _..|]. apply iter_coord_perm. Qed.

(** ** The run does not depend on the iteration order of sets *)

Lemma parse_order H e :
  parse_grch38_mappings H e = parse_grch38_mappings elements_order e.
Proof. apply sorted_coords_order. Qed.

Lemma process_id_order H data st x :
  process_id H data st x = process_id elements_order data st x.
Proof.
  unfold process_id. destruct (data !! x) as [e|]; [|done].
  by rewrite (parse_order H).
Qed.

Lemma foldl_process_id_order H data ids st :
  foldl (process_id H data) st ids = foldl (process_id elements_order data) st ids.
Proof.
  revert st. induction ids as [|x ids IH]; intros st; [done|].
  simpl. by rewrite IH, process_id_order.
Qed.

Lemma process_batch_order H st b w :
  process_batch H st b w = process_batch elements_order st b w.
Proof.
  unfold process_batch, bind.
  destruct (post_variation_batch b default_max_retries w); [|done..].
  by rewrite (foldl_process_id_order H).
Qed.

Lemma main_loop_order H bs st w :
  main_loop H bs st w = main_loop elements_order bs st w.
Proof.
  revert st w. induction bs as [|b bs IH]; intros st w; [done|].
  simpl. unfold bind. rewrite process_batch_order.
  destruct (process_batch elements_order st b w); auto.
Qed.

Lemma run_order H lines batch w :
  run H lines batch w = run elements_order lines batch w.
Proof.
  unfold run. case_decide; [done|]. destruct (chunks _ _); [|done].
  unfold bind. by rewrite main_loop_order.
Qed.

Lemma write_rows_order H rows : write_rows H rows = write_rows elements_order rows.
Proof. unfold write_rows. by rewrite sorted_strs_order. Qed.

Lemma write_outputs_order H rsids st :
  write_outputs H rsids st = write_outputs elements_order rsids st.
Proof. unfold write_outputs. by rewrite !(write_rows_order H). Qed.

Lemma main_order H lines batch w :
  main H lines batch w = main elements_order lines batch w.
Proof.
  unfold main, bind. rewrite run_order.
  destruct (run elements_order lines batch w); [|done..].
  unfold ret. by rewrite write_outputs_order.
Qed.

(** ** Splitting the allele string *)

Lemma split_not_nil sep s : Str.split sep s ≠ [].
Proof.
  destruct s as [|c s]; simpl; [done|].
  case_decide; [done|]. by destruct (Str.split sep s).
Qed.

Lemma join_split sep s : Str.join (String sep "") (Str.split sep s) = s.
Proof.
  induction s as [|c s IH]; [done|]. simpl.
  pose proof (split_not_nil sep s) as Hne.
  case_decide as Hc.
  - subst c. destruct (Str.split sep s) as [|t ts]; [done|].
    simpl in *. by rewrite IH.
  - destruct (Str.split sep s) as [|t ts]; [done|].
    simpl in *. rewrite <-IH. by destruct ts.
Qed.

Lemma split_no_sep sep s t : t ∈ Str.split sep s → ¬ occurs sep t.
Proof.
  revert t. induction s as [|c s IH]; intros t; simpl.
  - intros ->%list_elem_of_singleton. by intros [].
  - pose proof (split_not_nil sep s) as Hne. case_decide as Hc.
    + intros [->|?]%elem_of_cons; [by intros []|auto].
    + destruct (Str.split sep s) as [|t' ts]; [done|].
      intros [->|?]%elem_of_cons.
      * simpl. intros [?|?]; [congruence|]. eapply IH; [by left|done].
      * apply IH. by right.
Qed.

(** ** The mapping extractor *)

Lemma mapping_rows_kept m chrom pos als :
  kept m chrom pos als →
  mapping_rows m =
    match tail (Str.split "/" als) with
    | [] => [(normalize_chr chrom, pos, hd "" (Str.split "/" als),
              hd "" (Str.split "/" als))]
    | alts => (λ alt, (normalize_chr chrom, pos, hd "" (Str.split "/" als), alt))
                <$> alts
    end.
Proof.
  intros (Ha & Hc & Hc' & Hp & Hp' & Hs & Hs'). unfold mapping_rows.
  rewrite Ha, Hc, Hp, Hs. case_decide; [congruence|].
  unfold str_truthy, int_truthy. rewrite !bool_decide_true by done. simpl.
  case_decide as Hl;
    destruct (Str.split "/" als) as [|r [|a alts]]; simpl in *; done || lia.
Qed.

Lemma mapping_rows_inv m t :
  t ∈ mapping_rows m →
  ∃ chrom pos als, kept m chrom pos als ∧ t.1.1.1 = normalize_chr chrom ∧
    t.1.1.2 = pos.
Proof.
  unfold mapping_rows. case_decide as Ha; [by intros ?%elem_of_nil|].
  destruct (seq_region_name m) as [chrom|] eqn:Hc; [|by intros ?%elem_of_nil].
  destruct (start m) as [pos|] eqn:Hp; [|by intros ?%elem_of_nil].
  destruct (allele_string m) as [als|] eqn:Hs; [|by intros ?%elem_of_nil].
  unfold str_truthy, int_truthy.
  destruct (decide (chrom ≠ "")) as [Hc'|Hc'];
    [rewrite (bool_decide_true _ Hc')|rewrite (bool_decide_false _ Hc')];
    [|by intros ?%elem_of_nil].
  destruct (decide (pos ≠ 0%Z)) as [Hp'|Hp'];
    [rewrite (bool_decide_true _ Hp')|rewrite (bool_decide_false _ Hp')];
    [|by intros ?%elem_of_nil].
  destruct (decide (als ≠ "")) as [Hs'|Hs'];
    [rewrite (bool_decide_true _ Hs')|rewrite (bool_decide_false _ Hs')];
    [|by intros ?%elem_of_nil].
  simpl. intros Ht. exists chrom, pos, als. split; [done|].
  destruct (if decide (1 < length (Str.split "/" als))%nat
            then tail (Str.split "/" als) else []) as [|a alts].
  - by apply list_elem_of_singleton in Ht as ->.
  - by apply list_elem_of_fmap in Ht as (alt & -> & _).
Qed.

Lemma elem_of_parse H e t :
  t ∈ parse_grch38_mappings H e ↔
  ∃ m, m ∈ default [] (mappings e) ∧ t ∈ mapping_rows m.
Proof.
  unfold parse_grch38_mappings, parse_out.
  destruct (sorted_coords_spec H (list_to_set (default [] (mappings e) ≫= mapping_rows)))
    as (_ & _ & ->).
  rewrite elem_of_list_to_set, list_elem_of_bind.
  split; intros (m & ? & ?); eauto.
Qed.

Lemma parse_sorted H e :
  StronglySorted coord_le (parse_grch38_mappings H e) ∧
  NoDup (parse_grch38_mappings H e).
Proof.
  destruct (sorted_coords_spec H (list_to_set (parse_out e))) as (? & ? & _).
  by split.
Qed.

Lemma mapping_rows_falsy m :
  start m = Some 0%Z ∨ seq_region_name m = Some "" ∨ allele_string m = Some "" →
  mapping_rows m = [].
Proof.
  intros Hf. destruct (mapping_rows m) as [|t ts] eqn:E; [done|].
  destruct (mapping_rows_inv m t) as (c & p & a & Hk & _).
  { rewrite E. by left. }
  destruct Hk as (_ & Hc & Hc' & Hp & Hp' & Hs & Hs').
  destruct Hf as [?|[?|?]]; congruence.
Qed.

Lemma mapping_rows_absent m :
  start m = None ∨ seq_region_name m = None ∨ allele_string m = None →
  mapping_rows m = [].
Proof.
  intros Hf. destruct (mapping_rows m) as [|t ts] eqn:E; [done|].
  destruct (mapping_rows_inv m t) as (c & p & a & Hk & _).
  { rewrite E. by left. }
  destruct Hk as (_ & Hc & Hc' & Hp & Hp' & Hs & Hs').
  destruct Hf as [?|[?|?]]; congruence.
Qed.

Lemma parse_skip H err other pre m post :
  mapping_rows m = [] →
  parse_grch38_mappings H (Entry err (Some (pre ++ m :: post)) other)
  = parse_grch38_mappings H (Entry err (Some (pre ++ post)) other).
Proof.
  intros E. unfold parse_grch38_mappings, parse_out. simpl.
  by rewrite !bind_app, bind_cons, E.
Qed.

(** ** Chromosome names *)

Lemma startswith_app p rest : Str.startswith (p +:+ rest) p = true.
Proof.
  unfold Str.startswith. induction p as [|c p IH]; simpl; [by destruct rest|].
  by destruct (ascii_dec c c).
Qed.

Lemma lower_app s t : Str.lower (s +:+ t) = Str.lower s +:+ Str.lower t.
Proof. induction s as [|c s IH]; simpl; [done|]. by rewrite IH. Qed.

Lemma lower_length s : String.length (Str.lower s) = String.length s.
Proof. induction s as [|c s IH]; simpl; [done|]. by rewrite IH. Qed.

Lemma drop_app p rest : Str.drop (String.length p) (p +:+ rest) = rest.
Proof. induction p as [|c p IH]; simpl; [by destruct rest|done]. Qed.

Lemma chr_stripped_prefix p rest :
  Str.lower p = "chr" → chr_stripped (p +:+ rest) = rest.
Proof.
  intros Hp. unfold chr_stripped.
  rewrite lower_app, Hp, startswith_app.
  replace 3 with (String.length p); [apply drop_app|].
  by rewrite <-lower_length, Hp.
Qed.

Lemma normalize_chr_canonical chrom :
  normalize_chr chrom ∈ canonical_chroms ↔
  chr_stripped chrom ∈ canonical_chroms ∨ chr_stripped chrom ∈ mito_names.
Proof.
  unfold normalize_chr. case_decide as Hm.
  - split; [auto|]. intros _. unfold canonical_chroms. set_solver.
  - split; [auto|]. by intros [?|?].
Qed.

(** ** Claims about the identifier normalizer and the mapping extractor *)

(** C10. The prefix test of the identifier normalizer is the
    case-sensitive test for the lowercase string "rs": every stripped,
    non-blank line that does not start with "rs" contributes "rs" followed
    by the stripped line. So "RS123" becomes "rsRS123", an identifier
    different from "rs123", while "123" and "rs123" both become "rs123",
    which is listed once. *)
Theorem C10_rs_prefix_is_case_sensitive :
  (∀ lines line,
      line ∈ lines → Str.strip line ≠ "" →
      Str.startswith (Str.strip line) "rs" = false →
      normalize_id line = Some ("rs" +:+ Str.strip line) ∧
      "rs" +:+ Str.strip line ∈ read_rsids lines) ∧
  read_rsids ["RS123"] = ["rsRS123"] ∧
  "rsRS123" ≠ "rs123" ∧
  read_rsids ["123"; "rs123"] = ["rs123"] ∧
  read_rsids ["rs123"; "123"] = ["rs123"] ∧
  read_rsids ["RS123"; "123"; "rs123"] = ["rsRS123"; "rs123"].
Proof.
  split; [|split_and!; [vm_compute; reflexivity|done|vm_compute; reflexivity..]].
  intros lines line Hin Hne Hp.
  assert (normalize_id line = Some ("rs" +:+ Str.strip line)) as Hn.
  { unfold normalize_id. case_decide; [done|]. by rewrite Hp. }
  split; [done|]. apply elem_of_read_rsids. eauto.
Qed.

Lemma C10_witness :
  normalize_id (" RS123" +:+ Str.nl) = Some "rsRS123" ∧
  "rsRS123" ∈ read_rsids ["rs1"; " RS123" +:+ Str.nl].
Proof.
  apply (proj1 C10_rs_prefix_is_case_sensitive
           ["rs1"; " RS123" +:+ Str.nl] (" RS123" +:+ Str.nl)).
  - apply elem_of_cons. right. apply elem_of_cons. by left.
  - vm_compute. discriminate.
  - vm_compute. reflexivity.
Defined.

(** C9. The extractor tests chromosome, position and allele string by
    truthiness: a mapping whose start is 0, or whose chromosome or allele
    string is empty, contributes nothing, like a mapping from which the
    field is absent, and removing it from the entry does not change the
    result. No tuple with position 0 is produced. *)
Theorem C9_falsy_fields_are_skipped :
  (∀ m, start m = Some 0%Z ∨ seq_region_name m = Some "" ∨
        allele_string m = Some "" →
        mapping_rows m = [] ∧
        ∀ H err other pre post,
          parse_grch38_mappings H (Entry err (Some (pre ++ m :: post)) other)
          = parse_grch38_mappings H (Entry err (Some (pre ++ post)) other)) ∧
  (∀ m, start m = None ∨ seq_region_name m = None ∨ allele_string m = None →
        mapping_rows m = []) ∧
  (∀ H e t, t ∈ parse_grch38_mappings H e → t.1.1.2 ≠ 0%Z).
Proof.
  split_and!.
  - intros m Hf. pose proof (mapping_rows_falsy m Hf) as E. split; [done|].
    intros. by apply parse_skip.
  - apply mapping_rows_absent.
  - intros H e t (m & _ & Ht)%elem_of_parse.
    destruct (mapping_rows_inv m t Ht) as (c & p & a & Hk & _ & ->).
    by destruct Hk as (_ & _ & _ & _ & ? & _).
Qed.

Lemma C9_witness :
  mapping_rows (Mapping (Some "GRCh38") (Some "3") (Some 0%Z) (Some "C/T")) = [] ∧
  ∀ H err other pre post,
    parse_grch38_mappings H
      (Entry err (Some (pre ++ Mapping (Some "GRCh38") (Some "3") (Some 0%Z)
                                (Some "C/T") :: post)) other)
    = parse_grch38_mappings H (Entry err (Some (pre ++ post)) other).
Proof.
  apply (proj1 C9_falsy_fields_are_skipped
           (Mapping (Some "GRCh38") (Some "3") (Some 0%Z) (Some "C/T"))).
  left. reflexivity.
Defined.

(** C5. For a kept GRCh38 mapping whose allele string splits into REF
    and alternates, the extractor returns one tuple (chromosome, position,
    REF, ALT) for each alternate; with no alternate it returns the single
    tuple with ALT = REF; the returned list has no duplicates and is in
    tuple order. "A/G/T" at "chr7", 117559590 gives exactly (7, 117559590,
    A, G) and (7, 117559590, A, T), and the identifier's ambiguity row
    carries the count 2. *)
Theorem C5_multi_allelic_expansion :
  (∀ H e m chrom pos als,
      m ∈ default [] (mappings e) → kept m chrom pos als →
      let toks := Str.split "/" als in
      Str.join "/" toks = als ∧
      (∀ alt, alt ∈ tail toks →
              (normalize_chr chrom, pos, hd "" toks, alt)
                ∈ parse_grch38_mappings H e) ∧
      (tail toks ≠ [] →
       mapping_rows m
       = (λ alt, (normalize_chr chrom, pos, hd "" toks, alt)) <$> tail toks) ∧
      (tail toks = [] →
       mapping_rows m = [(normalize_chr chrom, pos, hd "" toks, hd "" toks)] ∧
       (normalize_chr chrom, pos, hd "" toks, hd "" toks)
         ∈ parse_grch38_mappings H e)) ∧
  (∀ H e, StronglySorted coord_le (parse_grch38_mappings H e) ∧
          NoDup (parse_grch38_mappings H e) ∧
          ∀ t, t ∈ parse_grch38_mappings H e ↔ t ∈ parse_out e) ∧
  (∀ H other,
      parse_grch38_mappings H (entry_A_G_T other)
      = [("7", 117559590%Z, "A", "G"); ("7", 117559590%Z, "A", "T")]) ∧
  (∀ H data st,
      data !! "rs1" = Some (entry_A_G_T true) →
      ambig_rows (process_id H data st "rs1")
      = {["rs1" +:+ Str.tab +:+ "2" +:+ Str.tab
            +:+ "7:117559590:A:G;7:117559590:A:T"]} ∪ ambig_rows st).
Proof.
  assert (∀ H other, parse_grch38_mappings H (entry_A_G_T other)
      = [("7", 117559590%Z, "A", "G"); ("7", 117559590%Z, "A", "T")]) as Hex.
  { intros H other. rewrite parse_order. unfold entry_A_G_T.
    destruct other; vm_compute; reflexivity. }
  split_and!; [| |done|].
  - intros H e m chrom pos als Hm Hk toks.
    pose proof (mapping_rows_kept m chrom pos als Hk) as E. fold toks in E.
    split_and!.
    + apply (join_split "/").
    + intros alt Halt. apply elem_of_parse. exists m. split; [done|].
      rewrite E. destruct (tail toks) as [|a alts]; [by apply elem_of_nil in Halt|].
      by apply (list_elem_of_fmap_2 (λ alt, (normalize_chr chrom, pos, hd "" toks, alt))).
    + intros Hne. rewrite E. by destruct (tail toks).
    + intros Hnil. rewrite Hnil in E. split; [done|].
      apply elem_of_parse. exists m. split; [done|]. rewrite E. by left.
  - intros H e. destruct (parse_sorted H e). split_and!; [done..|].
    intros t. unfold parse_grch38_mappings.
    destruct (sorted_coords_spec H (list_to_set (parse_out e))) as (_ & _ & ->).
    apply elem_of_list_to_set.
  - intros H data st Hd. unfold process_id. rewrite Hd.
    rewrite (Hex H true). simpl. f_equal.
Qed.

Lemma C5_witness :
  Str.join "/" (Str.split "/" "C/T//G") = "C/T//G" ∧
  (("1", 5%Z, "C", "") ∈
      parse_grch38_mappings reverse_order
        (Entry false (Some [Mapping (Some "GRCh38") (Some "Chr1") (Some 5%Z)
                              (Some "C/T//G")]) false)).
Proof.
  pose proof (proj1 C5_multi_allelic_expansion reverse_order
    (Entry false (Some [Mapping (Some "GRCh38") (Some "Chr1") (Some 5%Z)
                          (Some "C/T//G")]) false)
    (Mapping (Some "GRCh38") (Some "Chr1") (Some 5%Z) (Some "C/T//G"))
    "Chr1" 5%Z "C/T//G") as W.
  destruct W as (W1 & W2 & _).
  - simpl. by left.
  - unfold kept. simpl. split_and!; [reflexivity..|discriminate|reflexivity
      |discriminate|reflexivity|discriminate].
  - split; [exact W1|]. apply (W2 ""). vm_compute.
    right. left.
Defined.

(** C4 (as stated) fails: the extractor hands through any chromosome
    name. On an alternate-haplotype region of GRCh38 it produces a tuple
    whose chromosome is outside 1..22, X, Y, M. *)
Lemma C4_counterexample :
  parse_grch38_mappings elements_order
    (Entry false
       (Some [Mapping (Some "GRCh38") (Some "CHR_HSCHR6_MHC_COX_CTG1")
                (Some 31270213%Z) (Some "A/G")]) true)
  = [("_HSCHR6_MHC_COX_CTG1", 31270213%Z, "A", "G")] ∧
  "_HSCHR6_MHC_COX_CTG1" ∉ canonical_chroms.
Proof.
  split; [vm_compute; reflexivity|].
  apply (bool_decide_eq_false_1 ("_HSCHR6_MHC_COX_CTG1" ∈ canonical_chroms)).
  vm_compute. reflexivity.
Qed.

(** C4 (amended). The chromosome of every tuple the extractor produces
    is [normalize_chr] of the chromosome of a mapping of the entry. One
    leading "chr", in any letter case, is removed; the rest becomes "M"
    when it is one of M, MT, MtDNA, mt, MTDNA and is kept as it is
    otherwise. The result is in 1..22, X, Y, M exactly when the rest is in
    that set or is one of the five names. "MT", "chrM" and "mt" give "M". *)
Theorem C4_chromosome_normalization :
  (∀ H e t, t ∈ parse_grch38_mappings H e →
     ∃ m chrom, m ∈ default [] (mappings e) ∧ seq_region_name m = Some chrom ∧
                t.1.1.1 = normalize_chr chrom) ∧
  (∀ chrom,
     normalize_chr chrom
     = (if decide (chr_stripped chrom ∈ mito_names) then "M"
        else chr_stripped chrom) ∧
     (normalize_chr chrom ∈ canonical_chroms ↔
      chr_stripped chrom ∈ canonical_chroms ∨ chr_stripped chrom ∈ mito_names)) ∧
  (∀ p rest, Str.lower p = "chr" → chr_stripped (p +:+ rest) = rest) ∧
  (∀ chrom, Str.startswith (Str.lower chrom) "chr" = false →
            chr_stripped chrom = chrom) ∧
  normalize_chr "MT" = "M" ∧ normalize_chr "chrM" = "M" ∧ normalize_chr "mt" = "M".
Proof.
  split_and!; [| | | |vm_compute; reflexivity..].
  - intros H e t (m & Hm & Ht)%elem_of_parse.
    destruct (mapping_rows_inv m t Ht) as (c & p & a & Hk & Hc & _).
    exists m, c. by destruct Hk as (_ & ? & _).
  - intros chrom. split; [done|]. apply normalize_chr_canonical.
  - apply chr_stripped_prefix.
  - intros chrom E. unfold chr_stripped. by rewrite E.
Qed.

Lemma C4_witness :
  ∃ m chrom,
    m ∈ [Mapping (Some "GRCh38") (Some "cHrMT") (Some 7%Z) (Some "C/T")] ∧
    seq_region_name m = Some chrom ∧ "M" = normalize_chr chrom.
Proof.
  apply (proj1 C4_chromosome_normalization elements_order
           (Entry false (Some [Mapping (Some "GRCh38") (Some "cHrMT") (Some 7%Z)
                                 (Some "C/T")]) false)
           ("M", 7%Z, "C", "T")).
  vm_compute. left.
Defined.

(** ** Delays *)

Lemma py_max_spec a b :
  (a ≤ py_max a b)%Qc ∧ (b ≤ py_max a b)%Qc ∧ (py_max a b = a ∨ py_max a b = b).
Proof.
  unfold py_max. case_decide as Hlt.
  - split_and!; [by apply Qclt_le_weak|reflexivity|by right].
  - split_and!; [reflexivity|by apply Qcnot_lt_le|by left].
Qed.

Lemma py_min_spec a b :
  (py_min a b ≤ a)%Qc ∧ (py_min a b ≤ b)%Qc ∧ (py_min a b = a ∨ py_min a b = b).
Proof.
  unfold py_min. case_decide as Hlt.
  - split_and!; [by apply Qclt_le_weak|reflexivity|by right].
  - split_and!; [reflexivity|by apply Qcnot_lt_le|by left].
Qed.

Lemma float_max_finite a b :
  float_max (Finite a) (Finite b) = Finite (py_max a b).
Proof.
  unfold float_max, float_lt, py_max.
  case_bool_decide; case_decide; done.
Qed.

Lemma no_signal_doubles k :
  (quarter * Q2Qc 2 ^ S k = Q2Qc 2 * (quarter * Q2Qc 2 ^ k))%Qc.
Proof. simpl. ring. Qed.

Lemma pow2_S k : (Q2Qc 2 ^ S k = Q2Qc 2 ^ k + Q2Qc 2 ^ k)%Qc.
Proof.
  change (Q2Qc 2 ^ S k)%Qc with (Q2Qc 2 * Q2Qc 2 ^ k)%Qc.
  symmetry. apply Qcplus_diag.
Qed.

Lemma pow2_nonneg k : (0 ≤ Q2Qc 2 ^ k)%Qc.
Proof. apply Qcpower_pos. by vm_compute. Qed.

Lemma pow2_mono a b : (a ≤ b)%nat → (Q2Qc 2 ^ a ≤ Q2Qc 2 ^ b)%Qc.
Proof.
  induction 1 as [|b Hle IH]; [reflexivity|].
  etrans; [exact IH|]. rewrite pow2_S.
  rewrite <-(Qcplus_0_r (Q2Qc 2 ^ b)) at 1.
  apply Qcplus_le_mono_l, pow2_nonneg.
Qed.

Lemma scaled_mono a b :
  (a ≤ b)%nat → (quarter * Q2Qc 2 ^ a ≤ quarter * Q2Qc 2 ^ b)%Qc.
Proof.
  intros Hle. apply Qcmult_le_mono_nonneg_l; [by vm_compute|by apply pow2_mono].
Qed.

Lemma py_min_mono c x y : (x ≤ y)%Qc → (py_min c x ≤ py_min c y)%Qc.
Proof.
  intros Hxy. unfold py_min. repeat case_decide.
  - done.
  - by apply Qclt_le_weak.
  - exfalso. apply (Qcle_not_lt _ _ Hxy). eapply Qclt_le_trans; [done|].
    by apply Qcnot_lt_le.
  - reflexivity.
Qed.

Lemma quarter_lt_limit : (quarter < sleep_limit)%Qc.
Proof. by vm_compute. Qed.

Lemma ten_lt_limit : (ten < sleep_limit)%Qc.
Proof. by vm_compute. Qed.

Lemma no_signal_bounds attempt :
  (quarter ≤ py_min ten (quarter * Q2Qc 2 ^ attempt))%Qc ∧
  (py_min ten (quarter * Q2Qc 2 ^ attempt) < sleep_limit)%Qc.
Proof.
  split.
  - destruct (py_min_spec ten (quarter * Q2Qc 2 ^ attempt)) as (_ & _ & [-> | ->]).
    + by vm_compute.
    + etrans; [|apply (scaled_mono 0); lia]. by vm_compute.
  - eapply Qcle_lt_trans; [apply (proj1 (py_min_spec _ _))|apply ten_lt_limit].
Qed.

Lemma signal_bounds n :
  (n < sleep_limit)%Qc →
  (quarter ≤ py_max quarter n)%Qc ∧ (py_max quarter n < sleep_limit)%Qc.
Proof.
  intros Hn. split; [apply py_max_spec|].
  destruct (py_max_spec quarter n) as (_ & _ & [-> | ->]);
    [apply quarter_lt_limit|done].
Qed.

(** ** The clock *)

Lemma sleep_ok q w :
  (quarter ≤ q)%Qc → (q < sleep_limit)%Qc →
  sleep (Finite q) w = Ret () (World (net w) (slept w ++ [q]) (posted w)).
Proof.
  intros Hq Hl. unfold sleep.
  assert (0 ≤ q)%Qc as H0 by (etrans; [|exact Hq]; by vm_compute).
  rewrite decide_True.
  - rewrite decide_False; [done|]. by apply Qcle_not_lt.
  - split; [|done]. etrans; [|exact H0]. by vm_compute.
Qed.

Lemma sleep_too_long q w :
  (sleep_limit ≤ q)%Qc → sleep (Finite q) w = Raise OverflowError w.
Proof.
  intros Hl. unfold sleep. rewrite decide_False; [done|].
  intros [_ Hlt]. by apply (Qcle_not_lt _ _ Hl).
Qed.

Lemma sleep_tenth w :
  sleep (Finite tenth) w = Ret () (World (net w) (slept w ++ [tenth]) (posted w)).
Proof. reflexivity. Qed.

Lemma backoff_sleep_no_signal attempt w :
  (attempt < 1024)%nat →
  backoff_sleep attempt None w
  = Ret () (World (net w)
              (slept w ++ [py_min ten (quarter * Q2Qc 2 ^ attempt)%Qc]) (posted w)).
Proof.
  intros Hlt. unfold backoff_sleep, bind. rewrite decide_True by done.
  unfold ret. apply sleep_ok; apply no_signal_bounds.
Qed.

Lemma backoff_sleep_overflow attempt w :
  (1024 ≤ attempt)%nat → backoff_sleep attempt None w = Raise OverflowError w.
Proof.
  intros Hle. unfold backoff_sleep, bind. by rewrite decide_False by lia.
Qed.

Lemma backoff_sleep_signal attempt n w :
  (n < sleep_limit)%Qc →
  backoff_sleep attempt (Some (Finite n)) w
  = Ret () (World (net w) (slept w ++ [py_max quarter n]) (posted w)).
Proof.
  intros Hn. unfold backoff_sleep, bind, ret. rewrite float_max_finite.
  apply sleep_ok; by apply signal_bounds.
Qed.

Lemma backoff_sleep_signal_too_long attempt n w :
  (sleep_limit ≤ n)%Qc →
  backoff_sleep attempt (Some (Finite n)) w = Raise OverflowError w.
Proof.
  intros Hn. unfold backoff_sleep, bind, ret. rewrite float_max_finite.
  apply sleep_too_long. etrans; [exact Hn|apply py_max_spec].
Qed.

Lemma backoff_sleep_low attempt x w :
  x = MinusInf ∨ x = NaN →
  backoff_sleep attempt (Some x) w
  = Ret () (World (net w) (slept w ++ [quarter]) (posted w)).
Proof. by intros [-> | ->]. Qed.

Lemma backoff_sleep_inf attempt w :
  backoff_sleep attempt (Some PlusInf) w = Raise OverflowError w.
Proof. reflexivity. Qed.

(** [backoff_sleep] sleeps once, at least 0.25 s, or raises
    [OverflowError] without sleeping. *)
Lemma backoff_sleep_cases attempt ra w :
  (∃ d, (quarter ≤ d)%Qc ∧ (d < sleep_limit)%Qc ∧
        backoff_sleep attempt ra w
        = Ret () (World (net w) (slept w ++ [d]) (posted w))) ∨
  backoff_sleep attempt ra w = Raise OverflowError w.
Proof.
  destruct ra as [[n| | |]|].
  - destruct (decide (n < sleep_limit)%Qc) as [Hn|Hn].
    + left. exists (py_max quarter n).
      destruct (signal_bounds n Hn). by rewrite backoff_sleep_signal.
    + right. by apply backoff_sleep_signal_too_long, Qcnot_lt_le.
  - by right.
  - left. exists quarter. split_and!; [reflexivity|apply quarter_lt_limit|done].
  - left. exists quarter. split_and!; [reflexivity|apply quarter_lt_limit|done].
  - destruct (decide (attempt < 1024)%nat) as [Hlt|Hge].
    + left. eexists. destruct (no_signal_bounds attempt).
      by rewrite backoff_sleep_no_signal.
    + right. apply backoff_sleep_overflow. lia.
Qed.

(** The retry after an honourable failure sleeps [retry_delay]. *)
Lemma backoff_sleep_honourable attempt o w :
  honourable o → (attempt < 1024)%nat →
  (let* x := float_if (announced o) in backoff_sleep attempt x) w
  = Ret () (World (net w) (slept w ++ [retry_delay attempt o]) (posted w)).
Proof.
  unfold honourable, retry_delay. intros Ho Hlt.
  destruct (announced o) as [[[n| | |]|]|]; try done.
  - by apply backoff_sleep_signal.
  - by apply backoff_sleep_no_signal.
Qed.

(** After any other failure it raises, and nothing is slept. *)
Lemma backoff_sleep_refused attempt o w :
  ¬ honourable o →
  ∃ e, (e = ValueError ∨ e = OverflowError) ∧
    (e = ValueError ↔ announced o = Some NotFloat) ∧
    (let* x := float_if (announced o) in backoff_sleep attempt x) w = Raise e w.
Proof.
  unfold honourable. intros Ho.
  destruct (announced o) as [[[n| | |]|]|]; try (by destruct Ho).
  - exists OverflowError. split_and!; [by right|done|].
    by apply backoff_sleep_signal_too_long, Qcnot_lt_le.
  - exists OverflowError. by split_and!; [right|..].
  - exists ValueError. by split_and!; [left|..].
Qed.

(** ** The query client *)

Lemma retry_status_raises status_code :
  status_code ∈ retry_statuses →
  status_code ≠ 200%Z ∧ (400 ≤ status_code < 600)%Z ∧
  raise_for_status status_code = Some (HTTPError status_code).
Proof.
  unfold retry_statuses. rewrite !elem_of_cons, elem_of_nil.
  intros [->|[->|[->|[->|[->|[]]]]]]; by split_and!.
Qed.

(** One turn of the loop on a transient failure below the ceiling. *)
Lemma post_loop_transient max_retries ids attempt o script sl po :
  transient o → (attempt < max_retries)%nat →
  post_loop max_retries ids attempt (o :: script) sl po
  = match (let* x := float_if (announced o) in backoff_sleep (S attempt) x)
            (World script sl (po ++ [ids])) with
    | Ret _ w => post_loop max_retries ids (S attempt) script (slept w) (po ++ [ids])
    | Raise e w => Raise e w
    | Stuck w => Stuck w
    end.
Proof.
  intros Ht Hlt. destruct o as [|st hdr body]; simpl.
  - case_decide; [lia|done].
  - destruct (retry_status_raises st Ht) as [H200 _].
    case_decide; [done|]. case_decide; [|done]. by case_decide; [lia|].
Qed.

Lemma post_loop_retry max_retries ids attempt o script sl po :
  transient o → honourable o → (attempt < max_retries)%nat →
  (S attempt < 1024)%nat →
  post_loop max_retries ids attempt (o :: script) sl po
  = post_loop max_retries ids (S attempt) script
      (sl ++ [retry_delay (S attempt) o]) (po ++ [ids]).
Proof.
  intros Ht Ho Hlt Hb. rewrite post_loop_transient by done.
  by rewrite backoff_sleep_honourable.
Qed.

Lemma post_loop_refused max_retries ids attempt o script sl po :
  transient o → ¬ honourable o → (attempt < max_retries)%nat →
  ∃ e, (e = ValueError ∨ e = OverflowError) ∧
    (e = ValueError ↔ announced o = Some NotFloat) ∧
    post_loop max_retries ids attempt (o :: script) sl po
    = Raise e (World script sl (po ++ [ids])).
Proof.
  intros Ht Ho Hlt. rewrite post_loop_transient by done.
  destruct (backoff_sleep_refused (S attempt) o
              (World script sl (po ++ [ids])) Ho) as (e & He & Hv & ->).
  by exists e.
Qed.

Lemma post_loop_exhausted max_retries ids attempt o script sl po :
  transient o → (max_retries ≤ attempt)%nat →
  post_loop max_retries ids attempt (o :: script) sl po
  = Raise (failure_of o) (World script sl (po ++ [ids])).
Proof.
  intros Ht Hle. destruct o as [|st hdr body]; simpl.
  - case_decide; [done|lia].
  - destruct (retry_status_raises st Ht) as (H200 & _ & Hr).
    case_decide; [done|]. case_decide; [|done]. case_decide; [|lia].
    by rewrite Hr.
Qed.

Lemma post_loop_ok max_retries ids attempt hdr body script sl po :
  post_loop max_retries ids attempt (Response 200 hdr (Some body) :: script) sl po
  = Ret body (World script sl (po ++ [ids])).
Proof. reflexivity. Qed.

Lemma post_loop_not_json max_retries ids attempt hdr script sl po :
  post_loop max_retries ids attempt (Response 200 hdr None :: script) sl po
  = Raise JSONDecodeError (World script sl (po ++ [ids])).
Proof. reflexivity. Qed.

Lemma post_loop_retries max_retries ids fails : ∀ attempt script sl po,
  Forall transient fails → Forall honourable fails →
  (attempt + length fails ≤ max_retries)%nat →
  (attempt + length fails < 1024)%nat →
  post_loop max_retries ids attempt (fails ++ script) sl po
  = post_loop max_retries ids (attempt + length fails) script
      (sl ++ retry_delays attempt fails) (po ++ replicate (length fails) ids).
Proof.
  induction fails as [|o fails IH]; intros attempt script sl po Hf Hh Hle Hb.
  - simpl. by rewrite Nat.add_0_r, !app_nil_r.
  - apply Forall_cons in Hf as [Ho Hf]. apply Forall_cons in Hh as [Hho Hh].
    simpl in Hle, Hb.
    change ((o :: fails) ++ script) with (o :: (fails ++ script)).
    rewrite post_loop_retry; [|done|done|lia|lia].
    rewrite IH; [|done|done|lia|lia]. simpl.
    rewrite <-!app_assoc. simpl. f_equal. lia.
Qed.

(** A status of the 400..599 range outside the retried group raises at
    once. *)
Lemma post_loop_error_status max_retries ids attempt st hdr body script sl po :
  st ∉ retry_statuses → (400 ≤ st < 600)%Z →
  post_loop max_retries ids attempt (Response st hdr body :: script) sl po
  = Raise (HTTPError st) (World script sl (po ++ [ids])).
Proof.
  intros Hn Hr. simpl. case_decide; [lia|]. case_decide; [done|].
  unfold raise_for_status. by case_decide.
Qed.

(** Any other status but 200 goes round the loop: same counter, nothing
    slept, the batch is posted again. *)
Lemma post_loop_other_status max_retries ids attempt st hdr body script sl po :
  st ≠ 200%Z → st ∉ retry_statuses → ¬ (400 ≤ st < 600)%Z →
  post_loop max_retries ids attempt (Response st hdr body :: script) sl po
  = post_loop max_retries ids attempt script sl (po ++ [ids]).
Proof.
  intros H200 Hn Hr. simpl. case_decide; [done|]. case_decide; [done|].
  unfold raise_for_status. by case_decide.
Qed.

Lemma post_loop_other_statuses max_retries ids attempt st hdr body n :
  ∀ script sl po,
  st ≠ 200%Z → st ∉ retry_statuses → ¬ (400 ≤ st < 600)%Z →
  post_loop max_retries ids attempt
    (replicate n (Response st hdr body) ++ script) sl po
  = post_loop max_retries ids attempt script sl (po ++ replicate n ids).
Proof.
  induction n as [|n IH]; intros script sl po H200 Hn Hr.
  - simpl. by rewrite app_nil_r.
  - change (replicate (S n) (Response st hdr body) ++ script)
      with (Response st hdr body :: (replicate n (Response st hdr body) ++ script)).
    rewrite post_loop_other_status by done.
    rewrite IH by done. by rewrite <-app_assoc.
Qed.

Lemma retry_delays_lookup fails : ∀ attempt i o,
  fails !! i = Some o →
  retry_delays attempt fails !! i = Some (retry_delay (S (attempt + i)) o).
Proof.
  induction fails as [|o' fails IH]; intros attempt i o; [done|].
  destruct i as [|i]; simpl.
  - intros [= ->]. by rewrite Nat.add_0_r.
  - intros Hi. rewrite (IH _ _ _ Hi). do 3 f_equal. lia.
Qed.


Lemma post_variation_batch_ok max_retries ids fails hdr body rest sl po :
  Forall transient fails → Forall honourable fails →
  (length fails ≤ max_retries)%nat → (length fails < 1024)%nat →
  post_variation_batch ids max_retries
    (World (fails ++ Response 200 hdr (Some body) :: rest) sl po)
  = Ret body (World rest (sl ++ retry_delays 0 fails)
                (po ++ replicate (S (length fails)) ids)).
Proof.
  intros Hf Hh Hle Hb. unfold post_variation_batch. simpl net.
  rewrite post_loop_retries by done. rewrite post_loop_ok.
  do 2 f_equal. rewrite <-app_assoc. f_equal.
  by rewrite (replicate_S_end (length fails)).
Qed.


(** ** Claims about the query client *)

(** C2: what the client does on a status that is neither 200, nor of the
    retried group, nor in 400..599 (here 204, and 202): it posts the batch
    again at once, as often as that status comes back, without sleeping
    and without counting an attempt; it neither returns nor raises. A
    status in 400..599 outside the retried group (here 404) does raise at
    once. *)
Theorem C2_non_error_status_is_posted_again :
  ∀ ids n hdr body sl po,
    post_variation_batch ids default_max_retries
      (World (replicate n (Response 204 hdr body)) sl po)
    = Stuck (World [] sl (po ++ replicate n ids)) ∧
    post_variation_batch ids default_max_retries
      (World (replicate n (Response 202 hdr body)) sl po)
    = Stuck (World [] sl (po ++ replicate n ids)) ∧
    post_variation_batch ids default_max_retries
      (World (Response 404 hdr body :: replicate n (Response 204 hdr body)) sl po)
    = Raise (HTTPError 404) (World (replicate n (Response 204 hdr body)) sl
                               (po ++ [ids])).
Proof.
  intros ids n hdr body sl po. unfold post_variation_batch. simpl net.
  split_and!.
  - rewrite <-(app_nil_r (replicate n _)).
    by rewrite post_loop_other_statuses by (done || lia || set_solver).
  - rewrite <-(app_nil_r (replicate n _)).
    by rewrite post_loop_other_statuses by (done || lia || set_solver).
  - apply post_loop_error_status; [set_solver|lia].
Qed.

(** C3 (as stated) fails: the first retry without a [Retry-After] sleeps
    0.5 s, not 0.25 s. *)
Lemma C3_counterexample :
  ∃ w', post_variation_batch ["rs1"] default_max_retries
          (World [Response 429 None None; Response 200 None (Some ∅)] [] [])
        = Ret ∅ w' ∧
        this <$> slept w' = [(1 # 2)%Q] ∧
        this quarter = (1 # 4)%Q.
Proof.
  eexists. split_and!; [vm_compute; reflexivity|vm_compute; reflexivity..].
Qed.

(** C3 (amended). Every retry of a batch sleeps [max(0.25, N)] seconds
    when the failed response announces N seconds, and otherwise
    [min(10.0, 0.25 * 2^attempt)] seconds, where [attempt] counts the
    failures of the batch so far, this one included. Without announcement
    the first retry sleeps 0.5 s, each later one twice the previous value
    until the 10 s ceiling; up to the default ceiling of five retries the
    delays are 0.5, 1, 2, 4, 8 s. These are the delays of every retry
    there is, wherever the loop stands: after a failure whose announcement
    cannot be honoured (it is no number, or too long for [time.sleep])
    the client raises without sleeping and without posting again. *)
Theorem C3_backoff_schedule :
  (∀ max_retries ids fails hdr body rest sl po,
     Forall transient fails → Forall honourable fails →
     (length fails ≤ max_retries)%nat → (length fails < 1024)%nat →
     post_variation_batch ids max_retries
       (World (fails ++ Response 200 hdr (Some body) :: rest) sl po)
     = Ret body (World rest (sl ++ retry_delays 0 fails)
                   (po ++ replicate (S (length fails)) ids))) ∧
  (∀ fails i o, fails !! i = Some o →
     retry_delays 0 fails !! i = Some (retry_delay (S i) o) ∧
     (∀ n, announced o = Some (Float (Finite n)) →
           retry_delay (S i) o = py_max quarter n) ∧
     (announced o = None →
      retry_delay (S i) o = py_min ten (quarter * Q2Qc 2 ^ S i)%Qc)) ∧
  (∀ attempt n w,
     (n < sleep_limit)%Qc →
     backoff_sleep attempt (Some (Finite n)) w
     = Ret () (World (net w) (slept w ++ [py_max quarter n]) (posted w)) ∧
     (quarter ≤ py_max quarter n)%Qc ∧ (n ≤ py_max quarter n)%Qc ∧
     (py_max quarter n = quarter ∨ py_max quarter n = n)) ∧
  (∀ attempt w,
     (attempt < 1024)%nat →
     let d := (quarter * Q2Qc 2 ^ attempt)%Qc in
     backoff_sleep attempt None w
     = Ret () (World (net w) (slept w ++ [py_min ten d]) (posted w)) ∧
     (py_min ten d ≤ ten)%Qc ∧ (py_min ten d ≤ d)%Qc ∧
     (py_min ten d = ten ∨ py_min ten d = d)) ∧
  (∀ attempt,
     (quarter * Q2Qc 2 ^ S attempt = Q2Qc 2 * (quarter * Q2Qc 2 ^ attempt))%Qc) ∧
  (∀ max_retries ids attempt o script sl po,
     transient o → honourable o → (attempt < max_retries)%nat →
     (S attempt < 1024)%nat →
     post_loop max_retries ids attempt (o :: script) sl po
     = post_loop max_retries ids (S attempt) script
         (sl ++ [retry_delay (S attempt) o]) (po ++ [ids])) ∧
  (∀ max_retries ids attempt o script sl po,
     transient o → ¬ honourable o → (attempt < max_retries)%nat →
     ∃ e, (e = ValueError ∨ e = OverflowError) ∧
       post_loop max_retries ids attempt (o :: script) sl po
       = Raise e (World script sl (po ++ [ids]))) ∧
  this <$> slept (world_of (post_variation_batch ["rs1"] 7
                              (World (replicate 7 NetFail) [] [])))
  = [1 # 2; 1; 2; 4; 8; 10; 10]%Q ∧
  this quarter = (1 # 4)%Q ∧ this ten = 10%Q.
Proof.
  split_and!; [| | | | | | |vm_compute; reflexivity..].
  - apply post_variation_batch_ok.
  - intros fails i o Hi. split_and!.
    + by rewrite (retry_delays_lookup fails 0 i o Hi).
    + intros n Hn. unfold retry_delay. by rewrite Hn.
    + intros Hn. unfold retry_delay. by rewrite Hn.
  - intros attempt n w Hn. split; [by apply backoff_sleep_signal|].
    apply py_max_spec.
  - intros attempt w Hlt d. split; [by apply backoff_sleep_no_signal|].
    apply py_min_spec.
  - apply no_signal_doubles.
  - apply post_loop_retry.
  - intros max_retries ids attempt o script sl po Ht Ho Hlt.
    destruct (post_loop_refused max_retries ids attempt o script sl po Ht Ho Hlt)
      as (e & He & _ & Hr).
    by exists e.
Qed.

Lemma C3_witness :
  post_variation_batch ["rs1"; "rs2"] 2
    (World ([NetFail; Response 503 (Some (Float (Finite (Q2Qc 3)))) None]
              ++ Response 200 None (Some ∅) :: [NetFail]) [] [])
  = Ret ∅ (World [NetFail]
             ([] ++ retry_delays 0
                      [NetFail; Response 503 (Some (Float (Finite (Q2Qc 3)))) None])
             ([] ++ replicate 3 ["rs1"; "rs2"])) ∧
  (backoff_sleep 2 (Some (Finite (Q2Qc 3))) demo_world
   = Ret () (World (net demo_world)
               (slept demo_world ++ [py_max quarter (Q2Qc 3)])
               (posted demo_world)) ∧
   (quarter ≤ py_max quarter (Q2Qc 3))%Qc ∧ (Q2Qc 3 ≤ py_max quarter (Q2Qc 3))%Qc ∧
   (py_max quarter (Q2Qc 3) = quarter ∨ py_max quarter (Q2Qc 3) = Q2Qc 3)) ∧
  ∃ e, (e = ValueError ∨ e = OverflowError) ∧
    post_loop 5 ["rs1"] 0
      (Response 429 (Some NotFloat) None :: [Response 200 None (Some ∅)]) [] []
    = Raise e (World [Response 200 None (Some ∅)] [] ([] ++ [["rs1"]])).
Proof.
  split; [|split].
  - apply (proj1 C3_backoff_schedule 2 ["rs1"; "rs2"]
             [NetFail; Response 503 (Some (Float (Finite (Q2Qc 3)))) None]).
    + apply Forall_cons. split; [exact I|].
      apply Forall_cons. split; [|constructor].
      apply (list_elem_of_lookup_2 _ 3%nat). reflexivity.
    + apply Forall_cons. split; [exact I|].
      apply Forall_cons. split; [|constructor].
      vm_compute. reflexivity.
    + simpl. lia.
    + simpl. lia.
  - apply (proj1 (proj2 (proj2 C3_backoff_schedule)) 2%nat (Q2Qc 3) demo_world).
    vm_compute. reflexivity.
  - apply (proj1 (proj2 (proj2 (proj2 (proj2 (proj2 (proj2 C3_backoff_schedule))))))
             5%nat ["rs1"] 0%nat (Response 429 (Some NotFloat) None)).
    + apply (list_elem_of_lookup_2 _ 0%nat). reflexivity.
    + intros [].
    + lia.
Defined.

(** ** The batch loop *)

Lemma process_batch_ret H st b w st' w' :
  process_batch H st b w = Ret st' w' →
  ∃ data w1, post_variation_batch b default_max_retries w = Ret data w1 ∧
    st' = foldl (process_id H data) st b ∧
    w' = World (net w1) (slept w1 ++ [tenth]) (posted w1).
Proof.
  unfold process_batch, bind.
  destruct (post_variation_batch b default_max_retries w) as [data w1| |];
    [|done..].
  rewrite sleep_tenth. intros [= <- <-]. eauto.
Qed.

Lemma main_loop_ret H bs : ∀ st w st' w',
  main_loop H bs st w = Ret st' w' →
  ∃ datas, length datas = length bs ∧ st' = aggregate H st (zip bs datas).
Proof.
  induction bs as [|b bs IH]; intros st w st' w'; simpl.
  - intros [= <- <-]. by exists [].
  - unfold bind. destruct (process_batch H st b w) as [st1 w1| |] eqn:E; [|done..].
    intros Hl. apply process_batch_ret in E as (data & ? & _ & -> & _).
    destruct (IH _ _ _ _ Hl) as (datas & Hlen & ->).
    exists (data :: datas). split; [simpl; by rewrite Hlen|done].
Qed.

Lemma process_batch_ok H st b fails hdr body rest sl po :
  Forall transient fails → Forall honourable fails →
  (length fails ≤ default_max_retries)%nat →
  process_batch H st b
    (World (fails ++ Response 200 hdr (Some body) :: rest) sl po)
  = Ret (foldl (process_id H body) st b)
      (World rest ((sl ++ retry_delays 0 fails) ++ [tenth])
         (po ++ replicate (S (length fails)) b)).
Proof.
  intros Hf Hh Hle. unfold process_batch, bind.
  rewrite post_variation_batch_ok; [done..|].
  unfold default_max_retries in Hle. lia.
Qed.


Lemma main_loop_app H pre : ∀ post st w,
  main_loop H (pre ++ post) st w
  = match main_loop H pre st w with
    | Ret st1 w1 => main_loop H post st1 w1
    | Raise e w1 => Raise e w1
    | Stuck w1 => Stuck w1
    end.
Proof.
  induction pre as [|b pre IH]; intros post st w; [done|].
  simpl. unfold bind. destruct (process_batch H st b w); [|done..]. apply IH.
Qed.

Lemma main_loop_raise H b post st w e w' :
  post_variation_batch b default_max_retries w = Raise e w' →
  main_loop H (b :: post) st w = Raise e w'.
Proof. intros E. simpl. unfold bind, process_batch, bind. by rewrite E. Qed.



(** ** found and missing *)

Lemma foldl_save_row_found rs maps : ∀ st,
  maps ≠ [] → found (foldl (save_row rs) st maps) = {[rs]} ∪ found st.
Proof.
  induction maps as [|t maps IH]; intros st Hne; [done|]. simpl.
  destruct maps as [|t' maps].
  - simpl. by destruct t as [[[c p] r] a].
  - rewrite IH by done. destruct t as [[[c p] r] a]. simpl. set_solver.
Qed.

Lemma foldl_save_row_missing rs maps : ∀ st,
  missing (foldl (save_row rs) st maps) = missing st.
Proof.
  induction maps as [|t maps IH]; intros st; [done|]. simpl.
  rewrite IH. by destruct t as [[[c p] r] a].
Qed.

Lemma process_id_unmapped H data st x :
  unmapped H data x →
  found (process_id H data st x) = found st ∧
  missing (process_id H data st x) = {[x]} ∪ missing st.
Proof.
  unfold unmapped, process_id. destruct (data !! x) as [e|]; [|done].
  destruct (entry_truthy e), (has_error e); simpl; try done.
  intros [?|[?| ->]]; done.
Qed.

Lemma process_id_mapped H data st x :
  ¬ unmapped H data x →
  found (process_id H data st x) = {[x]} ∪ found st ∧
  missing (process_id H data st x) = missing st.
Proof.
  unfold unmapped, process_id. destruct (data !! x) as [e|]; [|done].
  destruct (entry_truthy e), (has_error e); simpl; try tauto.
  destruct (parse_grch38_mappings H e) as [|t maps] eqn:E; [tauto|].
  intros _. case_decide; unfold add_ambig; cbn [found missing];
    by rewrite foldl_save_row_found, foldl_save_row_missing.
Qed.

Lemma unmapped_dec H data x : unmapped H data x ∨ ¬ unmapped H data x.
Proof.
  unfold unmapped. destruct (data !! x) as [e|]; [|by left].
  destruct (entry_truthy e); [|by left; left].
  destruct (has_error e); [by left; right; left|].
  destruct (parse_grch38_mappings H e); [by left; right; right|].
  right. intros [?|[?|?]]; done.
Qed.

Lemma process_id_inv H data st seen x :
  split_inv st seen → x ∉ seen →
  split_inv (process_id H data st x) (seen ++ [x]).
Proof.
  intros [Hu Hd] Hx. unfold split_inv. rewrite list_to_set_app_L. simpl.
  assert (x ∉ found st ∪ missing st) as Hx'.
  { rewrite Hu. by rewrite elem_of_list_to_set. }
  destruct (unmapped_dec H data x) as [Hm|Hm].
  - destruct (process_id_unmapped H data st x Hm) as [-> ->]. set_solver.
  - destruct (process_id_mapped H data st x Hm) as [-> ->]. set_solver.
Qed.

Lemma foldl_process_id_inv H data ids : ∀ st seen,
  split_inv st seen → NoDup (seen ++ ids) →
  split_inv (foldl (process_id H data) st ids) (seen ++ ids).
Proof.
  induction ids as [|x ids IH]; intros st seen Hinv Hnd.
  - by rewrite app_nil_r.
  - simpl. replace (seen ++ x :: ids) with ((seen ++ [x]) ++ ids) in *
      by (by rewrite <-app_assoc).
    apply IH; [|done]. apply process_id_inv; [done|].
    apply NoDup_app in Hnd as (Hnd & _ & _).
    apply NoDup_app in Hnd as (_ & Hnd & _).
    intros Hin. apply (Hnd x Hin). by left.
Qed.

Lemma aggregate_inv H answers : ∀ st seen,
  split_inv st seen → NoDup (seen ++ mjoin answers.*1) →
  split_inv (aggregate H st answers) (seen ++ mjoin answers.*1).
Proof.
  induction answers as [|[b data] answers IH]; intros st seen Hinv Hnd.
  - simpl. by rewrite app_nil_r.
  - simpl in *. rewrite app_assoc in *. apply IH; [|done].
    apply foldl_process_id_inv; [done|].
    by apply NoDup_app in Hnd as (Hnd & _ & _).
Qed.

Lemma foldl_process_id_missing_mono H data ids : ∀ st,
  missing st ⊆ missing (foldl (process_id H data) st ids).
Proof.
  induction ids as [|x ids IH]; intros st; [done|]. simpl.
  etrans; [|apply IH].
  destruct (unmapped_dec H data x) as [Hm|Hm].
  - destruct (process_id_unmapped H data st x Hm) as [_ ->]. set_solver.
  - by destruct (process_id_mapped H data st x Hm) as [_ ->].
Qed.

Lemma aggregate_missing_mono H answers : ∀ st,
  missing st ⊆ missing (aggregate H st answers).
Proof.
  induction answers as [|a answers IH]; intros st; [done|]. simpl.
  etrans; [|apply IH]. apply foldl_process_id_missing_mono.
Qed.

Lemma run_ret H lines batch w rsids st w' :
  run H lines batch w = Ret (rsids, st) w' →
  rsids = read_rsids lines ∧ rsids ≠ [] ∧
  ∃ bs datas st0,
    chunks rsids batch = Some bs ∧ length datas = length bs ∧
    main_loop H bs empty_state w = Ret st0 w' ∧
    st0 = aggregate H empty_state (zip bs datas) ∧
    st = finalize rsids st0.
Proof.
  unfold run. case_decide as Hne; [done|].
  destruct (chunks (read_rsids lines) batch) as [bs|] eqn:Hch; [|done].
  unfold bind. destruct (main_loop H bs empty_state w) as [st0 w0| |] eqn:Hl; [|done..].
  intros [= <- <- <-]. split_and!; [done..|].
  destruct (main_loop_ret _ _ _ _ _ _ Hl) as (datas & Hlen & Hst).
  by exists bs, datas, st0.
Qed.

Lemma run_split H lines batch w rsids st w' :
  run H lines batch w = Ret (rsids, st) w' →
  found st ∪ missing st = list_to_set rsids ∧ found st ## missing st.
Proof.
  intros (-> & Hne & bs & datas & st0 & Hch & Hlen & _ & Hst0 & ->)%run_ret.
  assert (found st0 ∪ missing st0 ⊆ list_to_set (read_rsids lines)
          ∧ found st0 ## missing st0) as [Hsub Hdisj].
  { destruct (decide (0 < batch)%Z) as [Hpos|Hneg].
    - pose proof (chunks_concat _ _ _ Hpos Hch) as Hcat.
      destruct (aggregate_inv H (zip bs datas) empty_state []) as [Hu Hd].
      + split; simpl; set_solver.
      + simpl. rewrite fst_zip by lia. rewrite Hcat. apply read_rsids_NoDup.
      + simpl in Hu. rewrite fst_zip in Hu by lia. rewrite Hcat in Hu.
        rewrite <-Hst0 in Hu, Hd. split; [by rewrite Hu|done].
    - unfold chunks in Hch. repeat case_decide; try lia; try done.
      injection Hch as <-. simpl in Hst0. subst st0. simpl. set_solver. }
  unfold finalize. simpl. split; [|set_solver].
  apply set_eq. intros x. rewrite !elem_of_union, elem_of_difference.
  destruct (decide (x ∈ found st0)); set_solver.
Qed.

(** ** Claims about the run *)

(** C6. After a completed run every requested identifier is in exactly
    one of [found] and [missing]; the two sets are disjoint and together
    are the requested identifiers, so the totals of the summary line add
    up. *)
Theorem C6_found_missing_partition H lines batch w rsids st w' :
  run H lines batch w = Ret (rsids, st) w' →
  rsids = read_rsids lines ∧
  (∀ x, x ∈ rsids →
        ((x ∈ found st ∧ x ∉ missing st) ∨ ((x ∉ found st) ∧ x ∈ missing st))) ∧
  found st ## missing st ∧
  found st ∪ missing st = list_to_set rsids ∧
  main H lines batch w = Ret (write_outputs H rsids st) w' ∧
  size (found st) + size (missing st) = length rsids.
Proof.
  intros Hrun. pose proof (run_split _ _ _ _ _ _ _ Hrun) as [Hu Hd].
  pose proof (run_ret _ _ _ _ _ _ _ Hrun) as (Hr & _).
  split_and!; [done| |done|done| |].
  - intros x Hx. assert (x ∈ found st ∪ missing st) as Hx'.
    { rewrite Hu. by apply elem_of_list_to_set. }
    set_solver.
  - unfold main, bind. by rewrite Hrun.
  - rewrite <-size_union by done. rewrite Hu, Hr.
    apply size_list_to_set, read_rsids_NoDup.
Qed.

Lemma C6_witness :
  read_rsids demo_lines = read_rsids demo_lines ∧
  (∀ x, x ∈ read_rsids demo_lines →
        ((x ∈ found demo_state ∧ x ∉ missing demo_state) ∨
         ((x ∉ found demo_state) ∧ x ∈ missing demo_state))) ∧
  found demo_state ## missing demo_state ∧
  found demo_state ∪ missing demo_state = list_to_set (read_rsids demo_lines) ∧
  main elements_order demo_lines 2 demo_world
  = Ret (write_outputs elements_order (read_rsids demo_lines) demo_state) demo_end ∧
  size (found demo_state) + size (missing demo_state)
  = length (read_rsids demo_lines).
Proof.
  apply (C6_found_missing_partition elements_order demo_lines 2 demo_world).
  vm_compute. reflexivity.
Defined.

(** C1 (as stated) fails: in a run of two batches, the state after the
    first batch, before the second is posted, already has in [missing] the
    identifier that the first response did not contain. *)
Lemma C1_counterexample :
  chunks (read_rsids ["rs1"; "rs2"]) 1 = Some [["rs1"]; ["rs2"]] ∧
  process_batch elements_order empty_state ["rs1"]
    (World [Response 200 None (Some ∅); Response 200 None (Some ∅)] [] [])
  = Ret (add_missing "rs1" empty_state)
      (World [Response 200 None (Some ∅)] [tenth] [["rs1"]]) ∧
  "rs1" ∈ missing (add_missing "rs1" empty_state).
Proof.
  split_and!; [vm_compute; reflexivity..|].
  simpl. set_solver.
Qed.

(** C1 (amended). An identifier whose answer is absent from the batch
    response, falsy, flagged as an error or without GRCh38 tuples is added
    to [missing] when it is processed, and stays there through the later
    batches; after the last batch, requested - found is added, and the
    [missing] set of a completed run equals requested - found. *)
Theorem C1_missing_during_and_after_the_loop :
  (∀ H data st x, unmapped H data x → x ∈ missing (process_id H data st x)) ∧
  (∀ H bs st w st' w',
     main_loop H bs st w = Ret st' w' → missing st ⊆ missing st') ∧
  (∀ rsids st,
     missing (finalize rsids st) = missing st ∪ (list_to_set rsids ∖ found st)) ∧
  (∀ H lines batch w rsids st w',
     run H lines batch w = Ret (rsids, st) w' →
     missing st = list_to_set rsids ∖ found st).
Proof.
  split_and!.
  - intros H data st x Hm.
    destruct (process_id_unmapped H data st x Hm) as [_ ->]. set_solver.
  - intros H bs st w st' w' Hl.
    destruct (main_loop_ret _ _ _ _ _ _ Hl) as (datas & _ & ->).
    apply aggregate_missing_mono.
  - done.
  - intros H lines batch w rsids st w' Hrun.
    destruct (run_split _ _ _ _ _ _ _ Hrun) as [Hu Hd]. set_solver.
Qed.

Lemma C1_witness :
  "rs9" ∈ missing (process_id reverse_order demo_body empty_state "rs9") ∧
  "rs2" ∈ missing (process_id reverse_order demo_body empty_state "rs2").
Proof.
  split.
  - apply (proj1 C1_missing_during_and_after_the_loop reverse_order demo_body
             empty_state "rs9").
    vm_compute. exact I.
  - apply (proj1 C1_missing_during_and_after_the_loop reverse_order demo_body
             empty_state "rs2").
    vm_compute. right. left. reflexivity.
Defined.

(** C8. The five files do not depend on the order in which the sets are
    iterated, so two runs on the same input and the same responses write
    the same bytes: each file is the rows of one set, each followed by a
    newline, in ascending order and without repetition. Adding a row that
    is already in a set changes no file; in particular saving the same
    tuple for the same identifier twice is saving it once. *)
Theorem C8_deterministic_outputs :
  (∀ H1 H2 lines batch w, main H1 lines batch w = main H2 lines batch w) ∧
  (∀ H rows,
     let ls := sorted_strs H rows in
     write_rows H rows = foldr (λ row acc, row +:+ Str.nl +:+ acc) "" ls ∧
     StronglySorted String.le ls ∧ NoDup ls ∧ ∀ x, x ∈ ls ↔ x ∈ rows) ∧
  (∀ H rows x, x ∈ rows → write_rows H ({[x]} ∪ rows) = write_rows H rows) ∧
  (∀ rs st t, save_row rs (save_row rs st t) t = save_row rs st t) ∧
  (∀ H rsids rs st t,
     write_outputs H rsids (save_row rs (save_row rs st t) t)
     = write_outputs H rsids (save_row rs st t)).
Proof.
  assert (∀ rs st t, save_row rs (save_row rs st t) t = save_row rs st t) as Hs.
  { intros rs st [[[c p] r] a]. unfold save_row. simpl. f_equal; set_solver. }
  split_and!.
  - intros. by rewrite main_order, (main_order H2).
  - intros H rows ls. split; [done|]. apply sorted_strs_spec.
  - intros H rows x Hx. f_equal. set_solver.
  - done.
  - intros. by rewrite Hs.
Qed.

Lemma C8_witness :
  write_rows reverse_order ({["7:5:A:G"]} ∪ {["7:5:A:G"; "1:9:C:T"]})
  = write_rows reverse_order {["7:5:A:G"; "1:9:C:T"]}.
Proof.
  apply (proj1 (proj2 (proj2 C8_deterministic_outputs))).
  apply elem_of_union. left. by apply elem_of_singleton.
Defined.

(** * Further properties *)

(** ** More on the identifier list *)

Lemma read_rsids_step_list out line :
  read_rsids_step (list_to_set out, out) line
  = match normalize_id line with
    | None => (list_to_set out, out)
    | Some s =>
        if decide (s ∈ out) then (list_to_set out, out)
        else (list_to_set (out ++ [s]), out ++ [s])
    end.
Proof.
  unfold read_rsids_step. simpl. destruct (normalize_id line) as [s|]; [|done].
  destruct (decide (s ∈ out)) as [Hin|Hnin].
  - rewrite decide_True; [done|]. by apply elem_of_list_to_set.
  - rewrite decide_False; [|by rewrite elem_of_list_to_set].
    f_equal. rewrite list_to_set_app_L. simpl. set_solver.
Qed.

Lemma read_rsids_loop_from lines : ∀ out,
  read_rsids_loop lines (list_to_set out, out)
  = (list_to_set (out ++ filter (λ x, x ∉ out) (read_rsids lines)),
     out ++ filter (λ x, x ∉ out) (read_rsids lines)).
Proof.
  unfold read_rsids, read_rsids_loop.
  induction lines as [|line lines IH]; intros out.
  - simpl. by rewrite app_nil_r.
  - simpl. change (∅ : gset string) with (list_to_set (C:=gset string) []).
    rewrite !read_rsids_step_list.
    destruct (normalize_id line) as [s|]; [|apply IH].
    rewrite (decide_False (P:=s ∈ [])) by apply not_elem_of_nil.
    change ([] ++ [s]) with [s]. rewrite (IH [s]). cbn [snd].
    rewrite filter_app, list_filter_filter.
    set (L := (foldl read_rsids_step (∅, []) lines).2) in *.
    destruct (decide (s ∈ out)) as [Hin|Hnin].
    + rewrite IH. rewrite (filter_cons_False _ s []) by (by intros ?).
      rewrite filter_nil. simpl.
      assert (filter (λ a, (a ∉ out) ∧ (a ∉ [s])) L = filter (λ x, x ∉ out) L) as ->;
        [|done].
      apply list_filter_iff. intros x. split; [by intros [? _]|].
      intros Hx. split; [done|]. by intros ->%list_elem_of_singleton.
    + rewrite IH. rewrite (filter_cons_True _ s []) by done.
      rewrite filter_nil, <-!app_assoc. simpl.
      assert (filter (λ a, (a ∉ out) ∧ (a ∉ [s])) L = filter (λ x, x ∉ out ++ [s]) L)
        as ->; [|done].
      apply list_filter_iff. intros x.
      rewrite elem_of_app, list_elem_of_singleton. tauto.
Qed.

Lemma filter_not_elem_of_nil (l : list string) : filter (λ x, x ∉ []) l = l.
Proof.
  induction l as [|x l IH]; [done|].
  rewrite filter_cons_True by apply not_elem_of_nil. by rewrite IH.
Qed.

Lemma read_rsids_loop_set lines :
  read_rsids_loop lines (∅, [])
  = (list_to_set (read_rsids lines), read_rsids lines).
Proof.
  change (∅ : gset string) with (list_to_set (C:=gset string) []).
  rewrite read_rsids_loop_from, !app_nil_l.
  by rewrite filter_not_elem_of_nil.
Qed.

Lemma read_rsids_app lines1 lines2 :
  read_rsids (lines1 ++ lines2)
  = read_rsids lines1
      ++ filter (λ x, x ∉ read_rsids lines1) (read_rsids lines2).
Proof.
  unfold read_rsids at 1. unfold read_rsids_loop. rewrite foldl_app.
  fold (read_rsids_loop lines1 (∅, [])). rewrite read_rsids_loop_set.
  fold (read_rsids_loop lines2 (list_to_set (read_rsids lines1), read_rsids lines1)).
  by rewrite read_rsids_loop_from.
Qed.

(** X1. Reading two files one after the other gives the identifiers of
    the first, in their order, followed by those of the second that the
    first did not have; an identifier of either file is in the result. *)
Theorem X1_read_rsids_concat lines1 lines2 :
  read_rsids (lines1 ++ lines2)
  = read_rsids lines1
      ++ filter (λ x, x ∉ read_rsids lines1) (read_rsids lines2) ∧
  read_rsids lines1 `prefix_of` read_rsids (lines1 ++ lines2) ∧
  ∀ x, x ∈ read_rsids (lines1 ++ lines2) ↔
       x ∈ read_rsids lines1 ∨ x ∈ read_rsids lines2.
Proof.
  rewrite read_rsids_app. split_and!; [done|by eexists|].
  intros x. rewrite elem_of_app, list_elem_of_filter.
  destruct (decide (x ∈ read_rsids lines1)); tauto.
Qed.

(** ** Stripping *)

Lemma str_app_nil_r s : s +:+ "" = s.
Proof. induction s as [|c s IH]; [done|]. unfold String.app in *. simpl. by rewrite IH. Qed.

Lemma str_app_assoc a b c : (a +:+ b) +:+ c = a +:+ (b +:+ c).
Proof. induction a as [|x a IH]; [done|]. unfold String.app in *. simpl. by rewrite IH. Qed.

Lemma str_app_cons x a b : String x a +:+ b = String x (a +:+ b).
Proof. done. Qed.

Lemma str_rev_app_append s1 : ∀ s2, String.rev_app s1 s2 = String.rev s1 +:+ s2.
Proof.
  unfold String.rev. induction s1 as [|c s1 IH]; intros s2; [done|].
  simpl. rewrite IH, (IH (String c "")). by rewrite str_app_assoc.
Qed.

Lemma str_rev_cons c s : String.rev (String c s) = String.rev s +:+ String c "".
Proof. unfold String.rev at 1. simpl. apply str_rev_app_append. Qed.

Lemma str_rev_snoc s c : String.rev (s +:+ String c "") = String c (String.rev s).
Proof.
  induction s as [|x s IH]; [done|].
  rewrite str_app_cons, !str_rev_cons, IH. done.
Qed.

Lemma str_rev_involutive s : String.rev (String.rev s) = s.
Proof.
  induction s as [|c s IH]; [done|]. by rewrite str_rev_cons, str_rev_snoc, IH.
Qed.

Lemma str_rev_eq_nil s : String.rev s = "" → s = "".
Proof. intros E. by rewrite <-(str_rev_involutive s), E. Qed.

Lemma lstrip_snoc a c :
  Str.lstrip (a +:+ String c "")
  = if decide (Str.lstrip a = "")
    then (if Str.isspace c then "" else String c "")
    else Str.lstrip a +:+ String c "".
Proof.
  induction a as [|x a IH].
  - simpl. by destruct (Str.isspace c).
  - rewrite str_app_cons. simpl. destruct (Str.isspace x); [done|].
    by rewrite decide_False.
Qed.

Lemma rstrip_nil_iff s : Str.rstrip s = "" ↔ Str.lstrip (String.rev s) = "".
Proof.
  unfold Str.rstrip. split; [apply str_rev_eq_nil|]. by intros ->.
Qed.

Lemma rstrip_cons c s :
  Str.rstrip (String c s)
  = if decide (Str.rstrip s = "")
    then (if Str.isspace c then "" else String c "")
    else String c (Str.rstrip s).
Proof.
  unfold Str.rstrip at 1. rewrite str_rev_cons, lstrip_snoc.
  destruct (decide (Str.lstrip (String.rev s) = "")) as [E|E].
  - rewrite decide_True by (by apply rstrip_nil_iff).
    by destruct (Str.isspace c).
  - rewrite decide_False by (by rewrite rstrip_nil_iff).
    by rewrite str_rev_snoc.
Qed.

Lemma lstrip_length s :
  (String.length (Str.lstrip s) ≤ String.length s)%nat.
Proof.
  induction s as [|c s IH]; simpl; [done|].
  destruct (Str.isspace c); simpl; lia.
Qed.

Lemma lstrip_fixed c s : Str.lstrip (String c s) = String c s → Str.isspace c = false.
Proof.
  simpl. destruct (Str.isspace c); [|done]. intros E.
  pose proof (lstrip_length s) as Hl. rewrite E in Hl. simpl in Hl. lia.
Qed.

Lemma lstrip_idemp s : Str.lstrip (Str.lstrip s) = Str.lstrip s.
Proof.
  induction s as [|c s IH]; simpl; [done|].
  destruct (Str.isspace c) eqn:E; [done|]. simpl. by rewrite E.
Qed.

Lemma rstrip_idemp s : Str.rstrip (Str.rstrip s) = Str.rstrip s.
Proof.
  induction s as [|c s IH]; [done|]. rewrite rstrip_cons.
  destruct (decide (Str.rstrip s = "")) as [E|E].
  - destruct (Str.isspace c) eqn:Ec; [done|].
    rewrite rstrip_cons. simpl. by rewrite Ec.
  - rewrite rstrip_cons, IH. by rewrite decide_False.
Qed.

Lemma lstrip_rstrip s : Str.lstrip s = s → Str.lstrip (Str.rstrip s) = Str.rstrip s.
Proof.
  destruct s as [|c s]; [done|]. intros Ec%lstrip_fixed.
  rewrite rstrip_cons. rewrite Ec. case_decide; simpl; by rewrite Ec.
Qed.

Lemma strip_clean s : clean_ends (Str.strip s).
Proof.
  unfold clean_ends, Str.strip. split.
  - apply lstrip_rstrip, lstrip_idemp.
  - apply rstrip_idemp.
Qed.

Lemma strip_of_clean s : clean_ends s → Str.strip s = s.
Proof. intros [E1 E2]. unfold Str.strip. by rewrite E1. Qed.

Lemma rs_clean s : clean_ends s → s ≠ "" → clean_ends ("rs" +:+ s).
Proof.
  intros [E1 E2] Hne. split; [done|].
  change ("rs" +:+ s) with (String "r" (String "s" s)).
  rewrite rstrip_cons.
  assert (Str.rstrip (String "s" s) = String "s" s) as ->.
  { rewrite rstrip_cons, E2. by rewrite decide_False. }
  by rewrite decide_False.
Qed.

Lemma normalize_id_None line : normalize_id line = None ↔ Str.strip line = "".
Proof. unfold normalize_id. case_decide; split; done. Qed.

Lemma normalize_id_normal line x :
  normalize_id line = Some x →
  Str.startswith x "rs" = true ∧ clean_ends x ∧ x ≠ "" ∧ normalize_id x = Some x.
Proof.
  unfold normalize_id at 1. case_decide as Hne; [done|].
  pose proof (strip_clean line) as Hc.
  assert (∀ y, Str.startswith y "rs" = true → clean_ends y → y ≠ "" →
               normalize_id y = Some y) as Hfix.
  { intros y Hp Hy Hy'. unfold normalize_id.
    rewrite (strip_of_clean y Hy). rewrite decide_False by done. by rewrite Hp. }
  destruct (Str.startswith (Str.strip line) "rs") eqn:Hp; intros [= <-].
  - split_and!; [done..|]. by apply Hfix.
  - pose proof (rs_clean _ Hc Hne) as Hc'.
    assert (Str.startswith ("rs" +:+ Str.strip line) "rs" = true) as Hp'.
    { apply startswith_app. }
    split_and!; [done..|]. by apply Hfix.
Qed.

Lemma filter_not_elem_of_singleton (x : string) (l : list string) :
  x ∉ l → filter (λ y, y ∉ [x]) l = l.
Proof.
  induction l as [|y l IH]; [done|].
  intros [Hxy Hx]%not_elem_of_cons.
  rewrite filter_cons_True by (by intros ->%list_elem_of_singleton).
  by rewrite IH.
Qed.

Lemma read_rsids_normal l :
  NoDup l → (∀ x, x ∈ l → normalize_id x = Some x) → read_rsids l = l.
Proof.
  induction l as [|x l IH]; intros Hnd Hn; [done|].
  apply NoDup_cons in Hnd as [Hx Hnd].
  change (x :: l) with ([x] ++ l) at 1. rewrite read_rsids_app.
  assert (read_rsids [x] = [x]) as ->.
  { unfold read_rsids, read_rsids_loop. simpl. unfold read_rsids_step.
    rewrite (Hn x) by (by left). simpl. by rewrite decide_False by set_solver. }
  rewrite IH; [|done|intros y Hy; apply Hn; by right].
  by rewrite filter_not_elem_of_singleton.
Qed.

(** X2. The output of [read_rsids] is in normal form: every identifier
    starts with "rs", is not empty and has no white space at either end,
    and reading the output again returns it unchanged. *)
Theorem X2_read_rsids_idempotent lines :
  read_rsids (read_rsids lines) = read_rsids lines ∧
  ∀ x, x ∈ read_rsids lines →
       Str.startswith x "rs" = true ∧ x ≠ "" ∧ Str.strip x = x.
Proof.
  assert (∀ x, x ∈ read_rsids lines →
               Str.startswith x "rs" = true ∧ clean_ends x ∧ x ≠ "" ∧
               normalize_id x = Some x) as Hn.
  { intros x (line & _ & Hx)%elem_of_read_rsids. by apply normalize_id_normal in Hx. }
  split.
  - apply read_rsids_normal; [apply read_rsids_NoDup|]. intros x Hx. by apply Hn.
  - intros x Hx. destruct (Hn x Hx) as (? & ? & ? & _).
    split_and!; [done..|]. by apply strip_of_clean.
Qed.

Lemma read_rsids_nil_iff lines :
  read_rsids lines = [] ↔ Forall (λ line, Str.strip line = "") lines.
Proof.
  rewrite Forall_forall. split.
  - intros E line Hl. apply normalize_id_None.
    destruct (normalize_id line) as [x|] eqn:Hx; [|done].
    assert (x ∈ read_rsids lines) as Hin by (apply elem_of_read_rsids; eauto).
    rewrite E in Hin. by apply elem_of_nil in Hin.
  - intros Hb. destruct (read_rsids lines) as [|x l] eqn:E; [done|].
    assert (x ∈ read_rsids lines) as Hin by (rewrite E; by left).
    apply elem_of_read_rsids in Hin as (line & Hl & Hx).
    apply Hb, normalize_id_None in Hl. congruence.
Qed.

(** X3. Blank lines contribute nothing, wherever they stand, and the
    list is empty exactly when every line is blank. *)
Theorem X3_read_rsids_blank_lines :
  (∀ pre line post,
     Str.strip line = "" →
     read_rsids (pre ++ line :: post) = read_rsids (pre ++ post)) ∧
  (∀ lines, read_rsids lines = [] ↔ Forall (λ line, Str.strip line = "") lines).
Proof.
  split; [|apply read_rsids_nil_iff].
  intros pre line post Hb.
  change (line :: post) with ([line] ++ post).
  rewrite !read_rsids_app.
  assert (read_rsids [line] = []) as ->.
  { unfold read_rsids, read_rsids_loop. simpl. unfold read_rsids_step.
    by rewrite (proj2 (normalize_id_None line) Hb). }
  by rewrite app_nil_l, filter_not_elem_of_nil.
Qed.

(** ** More on batches *)

Lemma range0_lookup stop step i :
  (i < (stop + step - 1) / step)%nat →
  range0 stop step !! i = Some (i * step)%nat.
Proof.
  intros Hi. unfold range0. rewrite list_lookup_fmap.
  by rewrite lookup_seq_lt.
Qed.

Lemma range0_length stop step :
  length (range0 stop step) = ((stop + step - 1) / step)%nat.
Proof. unfold range0. by rewrite length_fmap, length_seq. Qed.

Lemma ceil_div_bound len m k :
  (0 < m)%nat → k = ((len + m - 1) / m)%nat →
  (len ≤ k * m)%nat ∧ (0 < len → (k - 1) * m < len)%nat ∧ (len = 0 → k = 0)%nat.
Proof.
  intros Hm ->.
  pose proof (Nat.div_mod_eq (len + m - 1) m) as Hd.
  pose proof (Nat.mod_upper_bound (len + m - 1) m).
  split_and!; [nia| |].
  - intros Hl. destruct ((len + m - 1) / m)%nat; simpl; nia.
  - intros ->. apply Nat.div_small. lia.
Qed.

(** X4. For a positive size the batches are a partition of the list in
    order: concatenated they give the list back; there are
    ceil(len / n) of them; none is empty or longer than [n]; all but the
    last have exactly [n] elements; batch [i] is [seq[i*n : i*n+n]]. *)
Theorem X4_chunks_partition (sq : list string) (n : Z) bs :
  (0 < n)%Z → chunks sq n = Some bs →
  mjoin bs = sq ∧
  length bs = ((length sq + Z.to_nat n - 1) / Z.to_nat n)%nat ∧
  (∀ i b, bs !! i = Some b →
     b = take (Z.to_nat n) (drop (i * Z.to_nat n) sq) ∧
     (1 ≤ length b ≤ Z.to_nat n)%nat ∧
     (S i < length bs → length b = Z.to_nat n)%nat).
Proof.
  intros Hn Hch. split; [by eapply chunks_concat|].
  unfold chunks in Hch. repeat case_decide; try lia. injection Hch as <-.
  set (m := Z.to_nat n). assert (0 < m)%nat as Hm by lia.
  rewrite length_fmap, range0_length. split; [done|].
  intros i b Hb. apply list_lookup_fmap_Some in Hb as (j & -> & Hj).
  assert (i < (length sq + m - 1) / m)%nat as Hi.
  { apply lookup_lt_Some in Hj. by rewrite range0_length in Hj. }
  rewrite range0_lookup in Hj by done. injection Hj as <-.
  destruct (ceil_div_bound (length sq) m _ Hm eq_refl) as (H1 & H2 & H3).
  split; [done|]. rewrite length_take, length_drop.
  assert (0 < length sq)%nat as Hpos.
  { destruct (length sq); [|lia]. rewrite H3 in Hi by done. lia. }
  specialize (H2 Hpos). split; [nia|]. intros. nia.
Qed.

(** ** The run on degenerate arguments *)

(** X5. With no identifier in the input, [main] exits with [SystemExit]
    before anything is posted, slept or written, whatever the batch
    size. That is the case exactly when every line is blank. *)
Theorem X5_main_empty_input H lines batch w :
  Forall (λ line, Str.strip line = "") lines →
  main H lines batch w = Raise SystemExit w.
Proof.
  intros Hb%read_rsids_nil_iff.
  unfold main, bind, run. by rewrite decide_True.
Qed.

(** X6. A batch size of 0 ends the run with the [ValueError] of [range]
    before anything is posted. A negative batch size makes [range] empty:
    the run completes without a single request and reports every
    identifier as missing. *)
Theorem X6_main_nonpositive_batch H lines batch w :
  read_rsids lines ≠ [] → (batch ≤ 0)%Z →
  (batch = 0%Z → main H lines batch w = Raise ValueError w) ∧
  ((batch < 0)%Z →
   main H lines batch w
   = Ret (write_outputs H (read_rsids lines)
            (RunState ∅ (list_to_set (read_rsids lines)) ∅ ∅ ∅ ∅)) w).
Proof.
  intros Hne Hle. unfold main, bind, run. rewrite decide_False by done.
  unfold chunks. split.
  - intros ->. by rewrite decide_True.
  - intros Hlt. rewrite decide_False by lia. rewrite decide_True by done.
    simpl. unfold ret, finalize, empty_state. simpl. do 3 f_equal. set_solver.
Qed.

(** ** More on chromosome names *)

Lemma chr_stripped_canonical c : c ∈ canonical_chroms → chr_stripped c = c.
Proof.
  unfold canonical_chroms. intros Hc.
  repeat (apply elem_of_cons in Hc as [->|Hc]; [reflexivity|]).
  by apply elem_of_nil in Hc.
Qed.

Lemma canonical_mito c : c ∈ canonical_chroms → c ∈ mito_names → c = "M".
Proof.
  unfold canonical_chroms. intros Hc Hm.
  repeat (apply elem_of_cons in Hc as [->|Hc];
          [first [reflexivity
                 | exfalso; revert Hm; apply (bool_decide_eq_false_1 _);
                   vm_compute; reflexivity]|]).
  by apply elem_of_nil in Hc.
Qed.

(** X7. The names 1..22, X, Y, M are fixed points of [normalize_chr],
    and a name of that set behind "chr" in any letter case is mapped to
    it. No result is one of the other mitochondrial names MT, MtDNA, mt,
    MTDNA. *)
Theorem X7_normalize_chr_on_canonical :
  (∀ c, c ∈ canonical_chroms →
        normalize_chr c = c ∧
        ∀ p, Str.lower p = "chr" → normalize_chr (p +:+ c) = c) ∧
  (∀ chrom, normalize_chr chrom ∉ ["MT"; "MtDNA"; "mt"; "MTDNA"]).
Proof.
  split.
  - intros c Hc.
    assert (∀ x, chr_stripped x = c → normalize_chr x = c) as Hn.
    { intros x Hx. unfold normalize_chr. rewrite Hx.
      case_decide as Hm; [|done]. symmetry. by apply canonical_mito. }
    split.
    + apply Hn. by apply chr_stripped_canonical.
    + intros p Hp. apply Hn. by apply chr_stripped_prefix.
  - intros chrom. unfold normalize_chr. case_decide as Hm.
    + apply (bool_decide_eq_false_1 _). vm_compute. reflexivity.
    + intros Hin. apply Hm. unfold mito_names. by right.
Qed.

(** ** More on delays *)

(** X8. Bounds of the backoff delay. Whatever the attempt number and the
    [Retry-After], [backoff_sleep] either sleeps once, at least 0.25 s,
    and returns, or raises [OverflowError] without sleeping. Without
    [Retry-After] and for attempt numbers below 1024 it returns: the delay
    never exceeds 10 s, does not decrease as the attempt number grows, and
    is exactly 10 s from the sixth attempt on. From attempt 1024 on,
    without [Retry-After], it raises [OverflowError]. *)
Theorem X8_backoff_delay_bounds :
  (∀ attempt ra w,
     (∃ d, (quarter ≤ d)%Qc ∧ (d < sleep_limit)%Qc ∧
           backoff_sleep attempt ra w
           = Ret () (World (net w) (slept w ++ [d]) (posted w))) ∨
     backoff_sleep attempt ra w = Raise OverflowError w) ∧
  (∀ a b w,
     (a ≤ b)%nat → (b < 1024)%nat →
     ∃ da db,
       backoff_sleep a None w
       = Ret () (World (net w) (slept w ++ [da]) (posted w)) ∧
       backoff_sleep b None w
       = Ret () (World (net w) (slept w ++ [db]) (posted w)) ∧
       (da ≤ db)%Qc ∧ (db ≤ ten)%Qc ∧ ((6 ≤ a)%nat → da = ten)) ∧
  (∀ attempt w,
     (1024 ≤ attempt)%nat →
     backoff_sleep attempt None w = Raise OverflowError w).
Proof.
  split_and!.
  - apply backoff_sleep_cases.
  - intros a b w Hab Hb. eexists _, _.
    split; [apply backoff_sleep_no_signal; lia|].
    split; [by apply backoff_sleep_no_signal|].
    split; [by apply py_min_mono, scaled_mono|].
    split; [apply py_min_spec|].
    intros Hle. unfold py_min. rewrite decide_False; [done|].
    apply Qcle_not_lt. etrans; [|apply (scaled_mono 6); done]. by vm_compute.
  - apply backoff_sleep_overflow.
Qed.

(** ** What the client does on any script *)

Lemma client_effects_again max_retries ids attempt attempt' o script sl po pre r :
  client_effects max_retries ids attempt' script (sl ++ pre) (po ++ [ids]) r →
  (attempt + length pre ≤ attempt')%nat → (length pre ≤ 1)%nat →
  Forall (λ d, (quarter ≤ d)%Qc ∧ (d < sleep_limit)%Qc) pre →
  client_effects max_retries ids attempt (o :: script) sl po r.
Proof.
  intros (k & extra & Hp & Hn & Hk & Hs & Hb & Hq & Hr) Hle Hone Hpre.
  exists (S k), (pre ++ extra). split_and!.
  - rewrite Hp, <-app_assoc. done.
  - done.
  - simpl. lia.
  - by rewrite Hs, <-app_assoc.
  - rewrite length_app. lia.
  - by apply Forall_app.
  - rewrite length_app. destruct r as [body w'|e w'|w'].
    + destruct Hr as (Hpos & ra & Hl). split; [lia|]. exists ra.
      replace (S k - 1)%nat with (S (k - 1)) by lia. done.
    + destruct Hr as (Hpos & o' & Hl & He). split; [lia|]. exists o'.
      replace (S k - 1)%nat with (S (k - 1)) by lia. done.
    + destruct Hr as [Hpos ->]. split; [lia|done].
Qed.

Lemma client_effects_stop max_retries ids attempt o script sl po
    (r : result (gmap string entry)) :
  world_of r = World script sl (po ++ [ids]) →
  (attempt ≤ max_retries)%nat →
  match r with
  | Ret body _ => ∃ ra, o = Response 200 ra (Some body)
  | Raise e _ => raised_on max_retries e o
  | Stuck _ => False
  end →
  client_effects max_retries ids attempt (o :: script) sl po r.
Proof.
  intros Hw Hle Hr. exists 1%nat, []. rewrite Hw. simpl.
  split_and!; [done|done|lia|by rewrite app_nil_r|lia|constructor|].
  destruct r as [body w'|e w'|w']; [| |done].
  - destruct Hr as [ra ->]. split; [lia|]. by exists ra.
  - split; [lia|]. by exists o.
Qed.

Lemma transient_or_not o : transient o ∨ ¬ transient o.
Proof.
  destruct o as [|st ra body]; simpl; [by left|].
  destruct (decide (st ∈ retry_statuses)); auto.
Qed.

(** What the retry after a failure does: one sleep, or a raise whose
    class tells why. *)
Lemma retry_sleep_cases attempt o w :
  (∃ d, (quarter ≤ d)%Qc ∧ (d < sleep_limit)%Qc ∧
        (let* x := float_if (announced o) in backoff_sleep attempt x) w
        = Ret () (World (net w) (slept w ++ [d]) (posted w))) ∨
  (announced o = Some NotFloat ∧
   (let* x := float_if (announced o) in backoff_sleep attempt x) w
   = Raise ValueError w) ∨
  (announced o ≠ Some NotFloat ∧ (honourable o → (1024 ≤ attempt)%nat) ∧
   (let* x := float_if (announced o) in backoff_sleep attempt x) w
   = Raise OverflowError w).
Proof.
  unfold honourable. destruct (announced o) as [[x|]|].
  - change ((let* x0 := float_if (Some (Float x)) in backoff_sleep attempt x0) w)
      with (backoff_sleep attempt (Some x) w).
    destruct (backoff_sleep_cases attempt (Some x) w) as [Hd|Hr]; [by left|].
    right. right. split; [done|]. split; [|done].
    destruct x as [n| | |]; [|done|by rewrite backoff_sleep_low in Hr; auto..].
    intros Hn. by rewrite backoff_sleep_signal in Hr.
  - right. left. by split.
  - change ((let* x0 := float_if None in backoff_sleep attempt x0) w)
      with (backoff_sleep attempt None w).
    destruct (decide (attempt < 1024)%nat) as [Hlt|Hge].
    + left. eexists. destruct (no_signal_bounds attempt).
      by rewrite backoff_sleep_no_signal.
    + right. right. split; [done|]. split; [lia|].
      apply backoff_sleep_overflow. lia.
Qed.

Lemma post_loop_effects max_retries ids script : ∀ attempt sl po,
  (attempt ≤ max_retries)%nat →
  client_effects max_retries ids attempt script sl po
    (post_loop max_retries ids attempt script sl po).
Proof.
  induction script as [|o script IH]; intros attempt sl po Hle.
  - exists 0%nat, []. simpl. split_and!; [by rewrite app_nil_r|done|done|
      by rewrite app_nil_r|lia|constructor|done|done].
  - destruct (transient_or_not o) as [Ht|Ht].
    + destruct (decide (attempt < max_retries)%nat) as [Hlt|Hge].
      * rewrite post_loop_transient by done.
        destruct (retry_sleep_cases (S attempt) o (World script sl (po ++ [ids])))
          as [(d & Hq & Hl & ->)|[[Hv ->]|(Hv & Ho & ->)]].
        -- eapply (client_effects_again _ _ _ _ _ _ _ _ [d]);
             [apply IH; lia|simpl; lia|simpl; lia|].
           by constructor; [|constructor].
        -- apply client_effects_stop; [done|done|].
           destruct o as [|st ra body]; [done|]. simpl in *. subst ra.
           by exists st, body.
        -- apply client_effects_stop; [done|done|]. simpl.
           split_and!; [done|done|]. intros Hh. specialize (Ho Hh). lia.
      * rewrite post_loop_exhausted by (done || lia).
        apply client_effects_stop; [done|done|].
        destruct o as [|st ra body]; [done|]. simpl.
        destruct (retry_status_raises st Ht) as (_ & Hr & _). eauto.
    + destruct o as [|st ra body]; [by destruct Ht|]. simpl in Ht.
      destruct (decide (st = 200%Z)) as [->|H200].
      * destruct body as [body|].
        -- rewrite post_loop_ok. apply client_effects_stop; [done|done|by exists ra].
        -- rewrite post_loop_not_json.
           apply client_effects_stop; [done|done|by exists ra].
      * destruct (decide (400 ≤ st < 600)%Z) as [Hr|Hr].
        -- rewrite post_loop_error_status by done.
           apply client_effects_stop; [done|done|]. simpl. eauto.
        -- rewrite post_loop_other_status by done.
           eapply (client_effects_again _ _ _ _ _ _ _ _ []);
             [rewrite app_nil_r; apply IH; lia|simpl; lia|simpl; lia|constructor].
Qed.

(** X9. Whatever the network answers, one call of the client posts the
    same payload once per answer it consumes and nothing else; it sleeps
    at most [max_retries] times, never less than 0.25 s, and posts again
    after every sleep; it returns only the body of a 200 response; and it
    raises only on the answer it consumed last: a network error, an HTTP
    error with a status in 400..599, a [JSONDecodeError] on a 200 response
    whose body is not JSON, a [ValueError] on a failure of the retried
    group whose [Retry-After] is no number, or an [OverflowError] on a
    transient failure after which it cannot sleep. *)
Theorem X9_post_variation_batch_effects ids max_retries w :
  client_effects max_retries ids 0 (net w) (slept w) (posted w)
    (post_variation_batch ids max_retries w).
Proof.
  unfold post_variation_batch. apply post_loop_effects. lia.
Qed.

(** X10. A status in 400..599 outside the retried group is raised at
    once as [HTTPError], whatever the counter and the log of the call so
    far, and so also when it follows transient failures of the same
    batch: no sleep is added for it and the batch is not posted again. *)
Theorem X10_error_status_raises_at_once
    max_retries ids fails st ra body rest sl po :
  st ∉ retry_statuses → (400 ≤ st < 600)%Z →
  (∀ attempt,
     post_loop max_retries ids attempt (Response st ra body :: rest) sl po
     = Raise (HTTPError st) (World rest sl (po ++ [ids]))) ∧
  (Forall transient fails → Forall honourable fails →
   (length fails ≤ max_retries)%nat → (length fails < 1024)%nat →
   post_variation_batch ids max_retries
     (World (fails ++ Response st ra body :: rest) sl po)
   = Raise (HTTPError st)
       (World rest (sl ++ retry_delays 0 fails)
          (po ++ replicate (S (length fails)) ids))).
Proof.
  intros Hn Hr. split.
  - intros attempt. by apply post_loop_error_status.
  - intros Hf Hh Hle Hb. unfold post_variation_batch. simpl net.
    rewrite post_loop_retries by done.
    rewrite post_loop_error_status by done.
    do 2 f_equal. rewrite <-app_assoc. f_equal.
    by rewrite (replicate_S_end (length fails)).
Qed.

(** ** What ends a call below the ceiling *)

Lemma post_loop_escapes max_retries ids attempt o script sl po e :
  escapes e o → (attempt < max_retries)%nat →
  post_loop max_retries ids attempt (o :: script) sl po
  = Raise e (World script sl (po ++ [ids])).
Proof.
  intros [Ht He] Hlt.
  assert (¬ honourable o) as Hn.
  { destruct e; try done; [|by destruct He].
    unfold honourable. rewrite He. by intros []. }
  destruct (post_loop_refused max_retries ids attempt o script sl po Ht Hn Hlt)
    as (e' & He' & Hv & ->).
  f_equal. destruct e; try done.
  - by apply Hv.
  - destruct He as [_ He]. destruct He' as [->| ->]; [|done].
    destruct He. by apply Hv.
Qed.

Lemma main_raise H lines batch pre b post w st1 w1 e w2 :
  read_rsids lines ≠ [] →
  chunks (read_rsids lines) batch = Some (pre ++ b :: post) →
  main_loop H pre empty_state w = Ret st1 w1 →
  post_variation_batch b default_max_retries w1 = Raise e w2 →
  main H lines batch w = Raise e w2.
Proof.
  intros Hne Hch Hpre Hr. unfold main, bind, run. case_decide; [done|].
  rewrite Hch. unfold bind. rewrite main_loop_app, Hpre.
  by rewrite (main_loop_raise H b post st1 w1 e w2).
Qed.

(** X19. What ends a call of the client, and with it the run, besides
    an error status: a 200 response whose body is not JSON raises
    [JSONDecodeError]; a transient failure met below the ceiling raises
    [ValueError] when its [Retry-After] is no number (an HTTP-date, say)
    and [OverflowError] when it is a number too long for [time.sleep].
    In each case nothing is slept for that answer and the batch is not
    posted again; [main] raises the same exception, posts no later batch
    and writes nothing. *)
Theorem X19_what_ends_a_call_below_the_ceiling :
  (∀ max_retries ids fails ra rest sl po,
     Forall transient fails → Forall honourable fails →
     (length fails ≤ max_retries)%nat → (length fails < 1024)%nat →
     post_variation_batch ids max_retries
       (World (fails ++ Response 200 ra None :: rest) sl po)
     = Raise JSONDecodeError
         (World rest (sl ++ retry_delays 0 fails)
            (po ++ replicate (S (length fails)) ids))) ∧
  (∀ max_retries ids fails o e rest sl po,
     Forall transient fails → Forall honourable fails →
     (length fails < max_retries)%nat → (length fails < 1024)%nat →
     escapes e o →
     post_variation_batch ids max_retries (World (fails ++ o :: rest) sl po)
     = Raise e
         (World rest (sl ++ retry_delays 0 fails)
            (po ++ replicate (S (length fails)) ids))) ∧
  (∀ H lines batch pre b post w st1 w1 o e rest,
     read_rsids lines ≠ [] →
     chunks (read_rsids lines) batch = Some (pre ++ b :: post) →
     main_loop H pre empty_state w = Ret st1 w1 →
     net w1 = o :: rest →
     escapes e o ∨ (e = JSONDecodeError ∧ ∃ ra, o = Response 200 ra None) →
     main H lines batch w
     = Raise e (World rest (slept w1) (posted w1 ++ [b]))).
Proof.
  split_and!.
  - intros max_retries ids fails ra rest sl po Hf Hh Hle Hb.
    unfold post_variation_batch. simpl net.
    rewrite post_loop_retries by done. rewrite post_loop_not_json.
    do 2 f_equal. rewrite <-app_assoc. f_equal.
    by rewrite (replicate_S_end (length fails)).
  - intros max_retries ids fails o e rest sl po Hf Hh Hlt Hb He.
    unfold post_variation_batch. simpl net.
    rewrite post_loop_retries by (done || lia).
    rewrite (post_loop_escapes _ _ _ _ _ _ _ e) by (done || lia).
    do 2 f_equal. rewrite <-app_assoc. f_equal.
    by rewrite (replicate_S_end (length fails)).
  - intros H lines batch pre b post w st1 w1 o e rest Hne Hch Hpre Hnet He.
    eapply main_raise; [done..|].
    destruct w1 as [n1 s1 p1]. simpl in *. subst n1.
    unfold post_variation_batch. cbn [net slept posted].
    destruct He as [He|[-> [ra ->]]].
    + apply post_loop_escapes; [done|]. unfold default_max_retries. lia.
    + apply post_loop_not_json.
Qed.

(** ** More on the mapping extractor *)

Lemma mapping_rows_grch38 m t :
  t ∈ mapping_rows m → assembly_name m = Some "GRCh38".
Proof.
  intros Ht. destruct (mapping_rows_inv m t Ht) as (c & p & a & Hk & _).
  by destruct Hk.
Qed.

(** X11. The result of the extractor depends only on which GRCh38
    mappings the entry has: their order, repetitions, mappings on other
    assemblies and the other keys of the entry do not matter. It is empty
    exactly when no mapping of the entry is kept. *)
Theorem X11_parse_depends_on_grch38_mappings H :
  (∀ e e',
     (∀ m, assembly_name m = Some "GRCh38" →
           (m ∈ default [] (mappings e) ↔ m ∈ default [] (mappings e'))) →
     parse_grch38_mappings H e = parse_grch38_mappings H e') ∧
  (∀ e, parse_grch38_mappings H e = [] ↔
        ∀ m chrom pos als,
          m ∈ default [] (mappings e) → ¬ kept m chrom pos als).
Proof.
  split.
  - intros e e' Hm. unfold parse_grch38_mappings. f_equal.
    apply set_eq. intros t. unfold parse_out.
    rewrite !elem_of_list_to_set, !list_elem_of_bind.
    split; intros (m & Ht & Hin); exists m; (split; [done|]);
      by apply (Hm m (mapping_rows_grch38 m t Ht)).
  - intros e. split.
    + intros E m chrom pos als Hin Hk.
      pose proof (mapping_rows_kept m chrom pos als Hk) as Hrows.
      assert (∃ t, t ∈ mapping_rows m) as [t Ht].
      { rewrite Hrows. destruct (tail (Str.split "/" als)) as [|a alts].
        - eexists. by left.
        - eexists. rewrite fmap_cons. by left. }
      assert (t ∈ parse_grch38_mappings H e) as Hin'.
      { apply elem_of_parse. eauto. }
      rewrite E in Hin'. by apply elem_of_nil in Hin'.
    + intros Hnk. destruct (parse_grch38_mappings H e) as [|t ts] eqn:E; [done|].
      assert (t ∈ parse_grch38_mappings H e) as Hin by (rewrite E; by left).
      apply elem_of_parse in Hin as (m & Hm & Ht).
      destruct (mapping_rows_inv m t Ht) as (c & p & a & Hk & _).
      by destruct (Hnk m c p a Hm).
Qed.

(** X12. Every tuple of the result comes from a kept mapping of the
    entry: its chromosome is the normalized chromosome of the mapping,
    its position the start, its reference allele the first token of the
    allele string, and its alternate allele a later token, or the
    reference allele when there is no later token. No allele of the result
    contains "/". *)
Theorem X12_parse_sound H e t :
  t ∈ parse_grch38_mappings H e →
  ∃ m chrom pos als,
    m ∈ default [] (mappings e) ∧ kept m chrom pos als ∧
    t.1.1.1 = normalize_chr chrom ∧ t.1.1.2 = pos ∧
    t.1.2 = hd "" (Str.split "/" als) ∧
    (t.2 ∈ tail (Str.split "/" als) ∨
     (tail (Str.split "/" als) = [] ∧ t.2 = t.1.2)) ∧
    ¬ occurs "/" t.1.2 ∧ ¬ occurs "/" t.2.
Proof.
  intros (m & Hm & Ht)%elem_of_parse.
  destruct (mapping_rows_inv m t Ht) as (c & p & a & Hk & _).
  exists m, c, p, a. split; [done|]. split; [done|].
  rewrite (mapping_rows_kept m c p a Hk) in Ht.
  pose proof (split_not_nil "/" a) as Hne.
  pose proof (split_no_sep "/" a) as Hsep.
  destruct (Str.split "/" a) as [|r alts]; [done|]. simpl in *.
  assert (¬ occurs "/" r) as Hr by (apply Hsep; by left).
  destruct alts as [|alt alts].
  - apply list_elem_of_singleton in Ht as ->. simpl. split_and!; auto.
  - apply elem_of_cons in Ht as [->|Ht].
    + simpl. split_and!; [done..|left; by left|done|].
      apply Hsep. right. by left.
    + apply list_elem_of_fmap in Ht as (x & -> & Hx). simpl.
      split_and!; [done..|left; by right|done|].
      apply Hsep. right. by right.
Qed.

(** ** What the aggregator records *)

Lemma process_id_found_iff H data st x y :
  y ∈ found (process_id H data st x) ↔
  y ∈ found st ∨ (y = x ∧ ¬ unmapped H data x).
Proof.
  destruct (unmapped_dec H data x) as [Hm|Hm].
  - destruct (process_id_unmapped H data st x Hm) as [-> _]. tauto.
  - destruct (process_id_mapped H data st x Hm) as [-> _].
    rewrite elem_of_union, elem_of_singleton. tauto.
Qed.

Lemma process_id_missing_iff H data st x y :
  y ∈ missing (process_id H data st x) ↔
  y ∈ missing st ∨ (y = x ∧ unmapped H data x).
Proof.
  destruct (unmapped_dec H data x) as [Hm|Hm].
  - destruct (process_id_unmapped H data st x Hm) as [_ ->].
    rewrite elem_of_union, elem_of_singleton. tauto.
  - destruct (process_id_mapped H data st x Hm) as [_ ->]. tauto.
Qed.

Lemma foldl_process_id_iff H data ids : ∀ st y,
  (y ∈ found (foldl (process_id H data) st ids) ↔
   y ∈ found st ∨ (y ∈ ids ∧ ¬ unmapped H data y)) ∧
  (y ∈ missing (foldl (process_id H data) st ids) ↔
   y ∈ missing st ∨ (y ∈ ids ∧ unmapped H data y)).
Proof.
  induction ids as [|x ids IH]; intros st y; simpl.
  - split; (split; [auto|]); intros [?|[Hy _]]; auto; by apply elem_of_nil in Hy.
  - destruct (IH (process_id H data st x) y) as [-> ->].
    rewrite process_id_found_iff, process_id_missing_iff, !elem_of_cons.
    split; split.
    + intros [[?|[-> ?]]|[? ?]]; auto.
    + intros [?|[[->|?] ?]]; auto.
    + intros [[?|[-> ?]]|[? ?]]; auto.
    + intros [?|[[->|?] ?]]; auto.
Qed.

Lemma aggregate_iff H answers : ∀ st y,
  (y ∈ found (aggregate H st answers) ↔
   y ∈ found st ∨ ∃ a, a ∈ answers ∧ y ∈ a.1 ∧ ¬ unmapped H a.2 y) ∧
  (y ∈ missing (aggregate H st answers) ↔
   y ∈ missing st ∨ ∃ a, a ∈ answers ∧ y ∈ a.1 ∧ unmapped H a.2 y).
Proof.
  induction answers as [|a answers IH]; intros st y; simpl.
  - split; (split; [auto|]); intros [?|(a & Ha & _)]; auto; by apply elem_of_nil in Ha.
  - destruct (IH (foldl (process_id H a.2) st a.1) y) as [-> ->].
    destruct (foldl_process_id_iff H a.2 a.1 st y) as [-> ->].
    split; split.
    + intros [[?|[? ?]]|(b & Hb & ?)]; auto.
      * right. exists a. split; [by left|done].
      * right. exists b. split; [by right|done].
    + intros [?|(b & Hb & ? & ?)]; auto.
      apply elem_of_cons in Hb as [->|Hb]; [auto|]. right. eauto.
    + intros [[?|[? ?]]|(b & Hb & ?)]; auto.
      * right. exists a. split; [by left|done].
      * right. exists b. split; [by right|done].
    + intros [?|(b & Hb & ? & ?)]; auto.
      apply elem_of_cons in Hb as [->|Hb]; [auto|]. right. eauto.
Qed.

Lemma post_variation_batch_ret ids max_retries w body w1 :
  post_variation_batch ids max_retries w = Ret body w1 →
  (∃ ra, Response 200 ra (Some body) ∈ net w) ∧ ∃ k, net w1 = drop k (net w).
Proof.
  intros E. pose proof (post_loop_effects max_retries ids (net w) 0 (slept w)
                          (posted w) (Nat.le_0_l _)) as Hc.
  fold (post_variation_batch ids max_retries w) in Hc.
  rewrite E in Hc. destruct Hc as (k & extra & _ & Hn & _ & _ & _ & _ & _ & ra & Hl).
  split; [|by exists k]. exists ra. by eapply list_elem_of_lookup_2.
Qed.

Lemma main_loop_answers H bs : ∀ st w st' w',
  main_loop H bs st w = Ret st' w' →
  ∃ datas, length datas = length bs ∧
    st' = aggregate H st (zip bs datas) ∧
    Forall (λ d, ∃ ra, Response 200 ra (Some d) ∈ net w) datas.
Proof.
  induction bs as [|b bs IH]; intros st w st' w'; simpl.
  - intros [= <- <-]. exists []. by split_and!.
  - unfold bind. destruct (process_batch H st b w) as [st1 w1| |] eqn:E; [|done..].
    intros Hl. apply process_batch_ret in E as (data & w0 & Hp & -> & ->).
    destruct (IH _ _ _ _ Hl) as (datas & Hlen & -> & Hall).
    apply post_variation_batch_ret in Hp as [Hd [k Hk]].
    exists (data :: datas). split_and!; [simpl; by rewrite Hlen|done|].
    constructor; [done|]. eapply Forall_impl; [exact Hall|].
    simpl. intros d [ra Hin]. exists ra. rewrite Hk in Hin.
    by eapply subseteq_drop.
Qed.

(** X13. Which identifiers end up in [found] and in [missing]. After the
    answers to some batches are folded in, an identifier is in [found]
    when it was there before or some batch containing it got an answer
    that maps it, and in [missing] when it was there before or some batch
    containing it got an answer that does not. The answers of a completed
    loop are bodies of 200 responses of the network, one for each
    batch. *)
Theorem X13_aggregate_found_missing H :
  (∀ answers st y,
     (y ∈ found (aggregate H st answers) ↔
      y ∈ found st ∨ ∃ a, a ∈ answers ∧ y ∈ a.1 ∧ ¬ unmapped H a.2 y) ∧
     (y ∈ missing (aggregate H st answers) ↔
      y ∈ missing st ∨ ∃ a, a ∈ answers ∧ y ∈ a.1 ∧ unmapped H a.2 y)) ∧
  (∀ bs st w st' w',
     main_loop H bs st w = Ret st' w' →
     ∃ datas, length datas = length bs ∧
       st' = aggregate H st (zip bs datas) ∧
       Forall (λ d, ∃ ra, Response 200 ra (Some d) ∈ net w) datas).
Proof. split; [apply aggregate_iff|apply main_loop_answers]. Qed.

(** ** The rows *)

Lemma save_row_projections rs st t P :
  projections st P → projections (save_row rs st t) (P ++ [(rs, t)]).
Proof.
  intros (Hf & Hc & Hi & Hr). destruct t as [[[c p] r] a].
  unfold projections, save_row. simpl.
  rewrite !fmap_app, !list_to_set_app_L. simpl.
  rewrite Hf, Hc, Hi, Hr. split_and!; set_solver.
Qed.

Lemma foldl_save_row_projections rs maps : ∀ st P,
  projections st P →
  projections (foldl (save_row rs) st maps) (P ++ ((λ t, (rs, t)) <$> maps)).
Proof.
  induction maps as [|t maps IH]; intros st P HP; simpl.
  - by rewrite app_nil_r.
  - rewrite (cons_middle _ P), app_assoc. apply IH.
    by apply save_row_projections.
Qed.

Lemma process_id_projections H data st x P :
  projections st P →
  ∃ maps, projections (process_id H data st x) (P ++ ((λ t, (x, t)) <$> maps)).
Proof.
  intros HP. unfold process_id.
  destruct (data !! x) as [e|]; [|exists []; by rewrite app_nil_r].
  destruct (negb (entry_truthy e) || has_error e);
    [exists []; by rewrite app_nil_r|].
  destruct (parse_grch38_mappings H e) as [|t maps] eqn:E;
    [exists []; by rewrite app_nil_r|].
  exists (t :: maps).
  pose proof (foldl_save_row_projections x (t :: maps) st P HP) as HP'.
  by case_decide.
Qed.

Lemma foldl_process_id_projections H data ids : ∀ st P,
  projections st P →
  ∃ P', projections (foldl (process_id H data) st ids) P'.
Proof.
  induction ids as [|x ids IH]; intros st P HP; simpl; [eauto|].
  destruct (process_id_projections H data st x P HP) as [maps HP'].
  by eapply IH.
Qed.

Lemma aggregate_projections H answers : ∀ st P,
  projections st P → ∃ P', projections (aggregate H st answers) P'.
Proof.
  induction answers as [|a answers IH]; intros st P HP; simpl; [eauto|].
  destruct (foldl_process_id_projections H a.2 a.1 st P HP) as [P' HP'].
  by eapply IH.
Qed.

(** X14. In the final state of a completed run the coordinate table, the
    extraction list and the range table are three renderings of one list
    of (identifier, tuple) pairs, and [found] is the set of identifiers
    of that list: every row of the three files belongs to a requested
    identifier that is in [found] and not in [missing]. *)
Theorem X14_run_rows_consistent H lines batch w rsids st w' :
  run H lines batch w = Ret (rsids, st) w' →
  ∃ P : list (string * coord),
    found st = list_to_set P.*1 ∧
    coord_rows st = list_to_set (coord_row <$> P) ∧
    id_rows st = list_to_set ((λ p, colon_row p.2) <$> P) ∧
    range_rows st = list_to_set (range_row <$> P) ∧
    Forall (λ p, p.1 ∈ rsids ∧ p.1 ∈ found st ∧ p.1 ∉ missing st) P.
Proof.
  intros Hrun. destruct (run_split _ _ _ _ _ _ _ Hrun) as [Hu Hd].
  apply run_ret in Hrun as (-> & _ & bs & datas & st0 & _ & _ & _ & -> & ->).
  destruct (aggregate_projections H (zip bs datas) empty_state [])
    as (P & Hf & Hc & Hi & Hr); [done|].
  exists P. unfold finalize in *. simpl in *. split_and!; [done..|].
  apply Forall_forall. intros p Hp.
  assert (p.1 ∈ found (aggregate H empty_state (zip bs datas))) as Hin.
  { rewrite Hf. apply elem_of_list_to_set. by apply list_elem_of_fmap_2. }
  split_and!; [|done|set_solver].
  apply (elem_of_list_to_set (C:=gset string)). rewrite <-Hu. set_solver.
Qed.

(** ** The log of a run on a well-behaved script *)

Lemma main_loop_log H bs : ∀ ss st rest sl po,
  length ss = length bs → Forall tolerable ss →
  main_loop H bs st (World (mjoin (batch_script <$> ss) ++ rest) sl po)
  = Ret (aggregate H st (zip bs ss.*2))
      (World rest (sl ++ script_sleeps ss) (po ++ script_posts bs ss)).
Proof.
  induction bs as [|b bs IH]; intros ss st rest sl po Hlen Hss.
  - destruct ss; [|done]. simpl. unfold ret. by rewrite !app_nil_r.
  - destruct ss as [|[fails body] ss]; [done|].
    apply Forall_cons in Hss as [(Hf & Hh & Hle) Hss]. simpl in *.
    unfold batch_script at 1. simpl. rewrite <-!app_assoc. simpl.
    unfold bind. rewrite process_batch_ok by done.
    rewrite IH by (lia || done).
    unfold script_sleeps, script_posts. simpl.
    by rewrite <-!app_assoc.
Qed.

(** X15. On a script in which every batch fails at most five times before
    its 200 response with a JSON body, each time transiently and with a
    [Retry-After] that is absent, empty or a number of seconds that
    [time.sleep] accepts, the loop completes and its log is: for each
    batch in order, the batch posted once per failure and once more, its
    backoff delays, then one pause of 0.1 s. Without any failure each
    batch is posted exactly once and the delays are one pause per
    batch. *)
Theorem X15_log_of_a_tolerable_run H bs ss st rest sl po :
  length ss = length bs → Forall tolerable ss →
  main_loop H bs st (World (mjoin (batch_script <$> ss) ++ rest) sl po)
  = Ret (aggregate H st (zip bs ss.*2))
      (World rest (sl ++ script_sleeps ss) (po ++ script_posts bs ss)) ∧
  (Forall (λ s, s.1 = []) ss →
   script_sleeps ss = replicate (length bs) tenth ∧ script_posts bs ss = bs).
Proof.
  intros Hlen Hss. split; [by apply main_loop_log|].
  clear Hss. revert ss Hlen.
  induction bs as [|b bs IH]; intros [|[fails body] ss] Hlen Hnil; try done.
  apply Forall_cons in Hnil as [Hf Hnil]. simpl in Hf. subst fails.
  destruct (IH ss) as [E1 E2]; [by simplify_eq/=|done|].
  change (script_sleeps (([], body) :: ss)) with (tenth :: script_sleeps ss).
  change (script_posts (b :: bs) (([], body) :: ss))
    with (b :: script_posts bs ss).
  by rewrite E1, E2.
Qed.

(** ** Reading a written file back *)

Lemma split_line sep row rest :
  ¬ occurs sep row →
  Str.split sep (row +:+ String sep rest) = row :: Str.split sep rest.
Proof.
  induction row as [|c row IH]; intros Hn.
  - change ("" +:+ String sep rest) with (String sep rest). simpl.
    by rewrite decide_True.
  - rewrite str_app_cons. simpl. simpl in Hn.
    rewrite decide_False by (intros ->; apply Hn; by left).
    rewrite IH; [done|]. intros ?. apply Hn. by right.
Qed.

(** X16. A written file reads back: when no row contains a newline,
    splitting the text of the file at the newlines gives the rows of the
    set in ascending order, each once, followed by the empty string after
    the last newline. *)
Theorem X16_write_rows_split H rows :
  (∀ row, row ∈ rows → ¬ occurs "010" row) →
  Str.split "010" (write_rows H rows) = sorted_strs H rows ++ [""] ∧
  length (sorted_strs H rows) = size rows.
Proof.
  intros Hn. split.
  - unfold write_rows, Str.nl.
    assert (∀ row, row ∈ sorted_strs H rows → ¬ occurs "010" row) as Hn'.
    { intros row Hr. apply Hn. by apply (sorted_strs_spec H rows). }
    induction (sorted_strs H rows) as [|row l IH]; [done|]. simpl.
    change (String "010" "" +:+ ?x) with (String "010" x).
    rewrite split_line by (apply Hn'; by left).
    rewrite IH; [done|]. intros r Hr. apply Hn'. by right.
  - unfold sorted_strs. rewrite merge_sort_Permutation, iter_str_perm. done.
Qed.

(** ** The order of the identifiers of a batch *)

Lemma run_state_eq a b :
  found a = found b → missing a = missing b → id_rows a = id_rows b →
  coord_rows a = coord_rows b → range_rows a = range_rows b →
  ambig_rows a = ambig_rows b → a = b.
Proof. destruct a, b. simpl. by intros -> -> -> -> -> ->. Qed.

Lemma save_row_union rs st t :
  save_row rs st t = state_union (save_row rs empty_state t) st.
Proof.
  destruct t as [[[c p] r] a].
  apply run_state_eq; simpl; set_solver.
Qed.

Lemma state_union_assoc a b c :
  state_union a (state_union b c) = state_union (state_union a b) c.
Proof. apply run_state_eq; simpl; set_solver. Qed.

Lemma state_union_comm a b : state_union a b = state_union b a.
Proof. apply run_state_eq; simpl; set_solver. Qed.

Lemma state_union_idemp a : state_union a a = a.
Proof. apply run_state_eq; simpl; set_solver. Qed.

Lemma state_union_empty a : state_union a empty_state = a.
Proof. apply run_state_eq; simpl; set_solver. Qed.

Lemma foldl_save_row_union rs maps : ∀ st,
  foldl (save_row rs) st maps
  = state_union (foldl (save_row rs) empty_state maps) st.
Proof.
  induction maps as [|t maps IH]; intros st; simpl.
  - by rewrite state_union_comm, state_union_empty.
  - rewrite IH, (IH (save_row rs empty_state t)), (save_row_union rs st).
    by rewrite state_union_assoc.
Qed.

Lemma process_id_union H data st x :
  process_id H data st x
  = state_union (process_id H data empty_state x) st.
Proof.
  unfold process_id. destruct (data !! x) as [e|].
  - destruct (negb (entry_truthy e) || has_error e).
    + apply run_state_eq; simpl; set_solver.
    + destruct (parse_grch38_mappings H e) as [|t maps].
      * apply run_state_eq; simpl; set_solver.
      * rewrite (foldl_save_row_union x (t :: maps) st).
        case_decide; [|done].
        apply run_state_eq; simpl; set_solver.
  - apply run_state_eq; simpl; set_solver.
Qed.

Lemma process_id_comm H data st x y :
  process_id H data (process_id H data st x) y
  = process_id H data (process_id H data st y) x.
Proof.
  rewrite (process_id_union H data (process_id H data st x) y).
  rewrite (process_id_union H data (process_id H data st y) x).
  rewrite (process_id_union H data st x), (process_id_union H data st y).
  rewrite !state_union_assoc. f_equal. apply state_union_comm.
Qed.

Lemma process_id_idemp H data st x :
  process_id H data (process_id H data st x) x = process_id H data st x.
Proof.
  rewrite (process_id_union H data (process_id H data st x) x).
  rewrite (process_id_union H data st x).
  by rewrite state_union_assoc, state_union_idemp.
Qed.

Lemma foldl_process_id_union H data ids : ∀ st,
  foldl (process_id H data) st ids
  = state_union (foldl (process_id H data) empty_state ids) st.
Proof.
  induction ids as [|x ids IH]; intros st; simpl.
  - by rewrite state_union_comm, state_union_empty.
  - rewrite IH, (IH (process_id H data empty_state x)).
    rewrite (process_id_union H data st x). by rewrite state_union_assoc.
Qed.

(** X17. Within one batch the order of the identifiers does not matter
    and a repeated identifier changes nothing: two lists with the same
    elements, folded in with the same response, give the same state. *)
Theorem X17_batch_order_irrelevant H data ids ids' st :
  (∀ x, x ∈ ids ↔ x ∈ ids') →
  foldl (process_id H data) st ids = foldl (process_id H data) st ids'.
Proof.
  assert (∀ l st, foldl (process_id H data) st (remove_dups l)
                  = foldl (process_id H data) st l) as Hdup.
  { induction l as [|x l IH]; intros s; [done|]. simpl.
    case_decide as Hin; simpl; [|by rewrite IH].
    rewrite IH. clear IH. revert s.
    induction l as [|y l IHl]; intros s; [by apply elem_of_nil in Hin|].
    apply elem_of_cons in Hin as [->|Hin]; simpl.
    - by rewrite process_id_idemp.
    - rewrite process_id_comm. by apply IHl. }
  assert (∀ l l', l ≡ₚ l' → ∀ st, foldl (process_id H data) st l
                                  = foldl (process_id H data) st l') as Hperm.
  { induction 1 as [|x l l' _ IH|x y l|l1 l2 l3 _ IH1 _ IH2]; intros s; simpl.
    - done.
    - apply IH.
    - by rewrite process_id_comm.
    - by rewrite IH1, IH2. }
  intros Hiff. rewrite <-(Hdup ids), <-(Hdup ids').
  apply Hperm. apply NoDup_Permutation; [apply NoDup_remove_dups..|].
  intros x. by rewrite !elem_of_remove_dups.
Qed.

(** ** The log of any completed loop *)

Lemma process_batch_log H st b w st' w' :
  process_batch H st b w = Ret st' w' →
  ∃ (k : nat) (extra : list Qc),
    posted w' = posted w ++ replicate k b ∧
    slept w' = slept w ++ extra ++ [tenth] ∧
    (length extra < k)%nat ∧ (length extra ≤ default_max_retries)%nat ∧
    Forall (λ d, (quarter ≤ d)%Qc) extra.
Proof.
  intros (data & w1 & Hp & _ & ->)%process_batch_ret.
  pose proof (post_loop_effects default_max_retries b (net w) 0 (slept w)
                (posted w) (Nat.le_0_l _)) as Hc.
  fold (post_variation_batch b default_max_retries w) in Hc.
  rewrite Hp in Hc.
  destruct Hc as (k & extra & Hpo & _ & _ & Hs & Hb & Hq & Hk & _).
  exists k, extra. simpl in *. rewrite Hpo, Hs, <-app_assoc.
  split_and!; [done|done|done|lia|].
  eapply Forall_impl; [exact Hq|]. by intros d [Hd _].
Qed.

(** X18. Whatever the network did, a loop that completed did this for
    each batch, in order, and nothing else: it posted the batch at least
    once; it slept at most five backoff delays, each of at least 0.25 s
    and each followed by a new post of the batch; then it paused 0.1 s,
    once. So it slept at least once and at most six times for each
    batch. *)
Theorem X18_log_bounds_of_a_completed_loop H bs : ∀ st w st' w',
  main_loop H bs st w = Ret st' w' →
  ∃ logs : list (nat * list Qc),
    length logs = length bs ∧
    posted w' = posted w ++ mjoin (zip_with (λ b l, replicate l.1 b) bs logs) ∧
    slept w' = slept w ++ (logs ≫= λ l, l.2 ++ [tenth]) ∧
    Forall (λ l, (length l.2 < l.1)%nat ∧
                 (1 ≤ length (l.2 ++ [tenth]) ≤ 6)%nat ∧
                 Forall (λ d, (quarter ≤ d)%Qc) l.2) logs.
Proof.
  induction bs as [|b bs IH]; intros st w st' w'; simpl.
  - intros [= <- <-]. exists []. rewrite !app_nil_r.
    split; [done|]. split; [done|]. split; [done|constructor].
  - unfold bind. destruct (process_batch H st b w) as [st1 w1| |] eqn:E; [|done..].
    intros Hl. apply process_batch_log in E as (k & ex & Hpo & Hs & Hk & Hb & Hq).
    destruct (IH _ _ _ _ Hl) as (logs & Hlen & Hpo' & Hs' & Hall).
    exists ((k, ex) :: logs).
    split; [simpl; by rewrite Hlen|].
    split; [by rewrite Hpo', Hpo, <-app_assoc|].
    split; [rewrite Hs', Hs, bind_cons; simpl; by rewrite <-!app_assoc|].
    constructor; [|done]. simpl. split; [done|]. split; [|done].
    rewrite length_app. unfold default_max_retries in Hb. simpl. lia.
Qed.

(** ** Instances *)

Lemma X2_witness :
  Str.startswith "rsRS9" "rs" = true ∧ "rsRS9" ≠ "" ∧ Str.strip "rsRS9" = "rsRS9".
Proof.
  apply (proj2 (X2_read_rsids_idempotent [" 7 "; "rs7"; "RS9" +:+ Str.nl]) "rsRS9").
  apply (list_elem_of_lookup_2 _ 1%nat). vm_compute. reflexivity.
Defined.

Lemma X3_witness :
  read_rsids (["rs1"] ++ (" " +:+ Str.nl) :: ["2"]) = read_rsids (["rs1"] ++ ["2"]).
Proof.
  apply (proj1 X3_read_rsids_blank_lines ["rs1"] (" " +:+ Str.nl) ["2"]).
  vm_compute. reflexivity.
Defined.

Lemma X4_witness :
  mjoin [["a"; "b"]; ["c"; "d"]; ["e"]] = ["a"; "b"; "c"; "d"; "e"] ∧
  length [["a"; "b"]; ["c"; "d"]; ["e"]]
  = ((length ["a"; "b"; "c"; "d"; "e"] + Z.to_nat 2 - 1) / Z.to_nat 2)%nat ∧
  (∀ i b, [["a"; "b"]; ["c"; "d"]; ["e"]] !! i = Some b →
     b = take (Z.to_nat 2) (drop (i * Z.to_nat 2) ["a"; "b"; "c"; "d"; "e"]) ∧
     (1 ≤ length b ≤ Z.to_nat 2)%nat ∧
     (S i < length [["a"; "b"]; ["c"; "d"]; ["e"]] → length b = Z.to_nat 2)%nat).
Proof.
  apply (X4_chunks_partition ["a"; "b"; "c"; "d"; "e"] 2).
  - lia.
  - vm_compute. reflexivity.
Defined.

Lemma X5_witness :
  main elements_order [""; "  " +:+ Str.nl] 200 demo_world
  = Raise SystemExit demo_world.
Proof.
  apply (X5_main_empty_input elements_order [""; "  " +:+ Str.nl] 200 demo_world).
  apply Forall_cons. split; [vm_compute; reflexivity|].
  apply Forall_cons. split; [vm_compute; reflexivity|]. constructor.
Defined.

Lemma X6_witness :
  (0 = 0 → main elements_order ["rs1"] 0 demo_world = Raise ValueError demo_world)%Z ∧
  (∀ batch, batch = (-3)%Z →
     main elements_order ["rs1"] batch demo_world
     = Ret (write_outputs elements_order (read_rsids ["rs1"])
              (RunState ∅ (list_to_set (read_rsids ["rs1"])) ∅ ∅ ∅ ∅)) demo_world).
Proof.
  split.
  - apply (X6_main_nonpositive_batch elements_order ["rs1"] 0 demo_world).
    + vm_compute. discriminate.
    + lia.
  - intros batch ->.
    apply (X6_main_nonpositive_batch elements_order ["rs1"] (-3) demo_world).
    + vm_compute. discriminate.
    + lia.
    + lia.
Defined.

Lemma X7_witness :
  normalize_chr "X" = "X" ∧
  ∀ p, Str.lower p = "chr" → normalize_chr (p +:+ "X") = "X".
Proof.
  apply (proj1 X7_normalize_chr_on_canonical "X").
  apply (list_elem_of_lookup_2 _ 22%nat). reflexivity.
Defined.

Lemma X8_witness :
  (∃ da db,
     backoff_sleep 1 None demo_world
     = Ret () (World (net demo_world) (slept demo_world ++ [da])
                 (posted demo_world)) ∧
     backoff_sleep 3 None demo_world
     = Ret () (World (net demo_world) (slept demo_world ++ [db])
                 (posted demo_world)) ∧
     (da ≤ db)%Qc ∧ (db ≤ ten)%Qc ∧ ((6 ≤ 1)%nat → da = ten)) ∧
  backoff_sleep 1024 None demo_world = Raise OverflowError demo_world.
Proof.
  split.
  - apply (proj1 (proj2 X8_backoff_delay_bounds) 1%nat 3%nat demo_world); lia.
  - apply (proj2 (proj2 X8_backoff_delay_bounds) 1024%nat demo_world). lia.
Defined.

Lemma X10_witness :
  (∀ attempt,
     post_loop 5 ["rs1"] attempt
       (Response 404 (Some NotFloat) None :: [Response 200 None (Some ∅)]) [] []
     = Raise (HTTPError 404)
         (World [Response 200 None (Some ∅)] [] ([] ++ [["rs1"]]))) ∧
  post_variation_batch ["rs1"] 5
    (World ([NetFail] ++ Response 404 (Some NotFloat) None
              :: [Response 200 None (Some ∅)]) [] [])
  = Raise (HTTPError 404)
      (World [Response 200 None (Some ∅)] ([] ++ retry_delays 0 [NetFail])
         ([] ++ replicate 2 ["rs1"])).
Proof.
  assert (404%Z ∉ retry_statuses) as Hn.
  { apply (bool_decide_eq_false_1 (404%Z ∈ retry_statuses)). reflexivity. }
  assert (400 ≤ 404 < 600)%Z as Hr by lia.
  split.
  - apply (proj1 (X10_error_status_raises_at_once 5 ["rs1"] [NetFail] 404
                    (Some NotFloat) None [Response 200 None (Some ∅)] [] []
                    Hn Hr)).
  - apply (proj2 (X10_error_status_raises_at_once 5 ["rs1"] [NetFail] 404
                    (Some NotFloat) None [Response 200 None (Some ∅)] [] []
                    Hn Hr)).
    + apply Forall_cons. split; [exact I|constructor].
    + apply Forall_cons. split; [exact I|constructor].
    + simpl. lia.
    + simpl. lia.
Defined.

Lemma X11_witness :
  parse_grch38_mappings reverse_order
    (Entry false
       (Some [Mapping (Some "GRCh37") (Some "1") (Some 9%Z) (Some "C/T");
              Mapping (Some "GRCh38") (Some "1") (Some 5%Z) (Some "A/G")]) true)
  = parse_grch38_mappings reverse_order
      (Entry true
         (Some [Mapping (Some "GRCh38") (Some "1") (Some 5%Z) (Some "A/G");
                Mapping (Some "GRCh38") (Some "1") (Some 5%Z) (Some "A/G")]) false).
Proof.
  apply (proj1 (X11_parse_depends_on_grch38_mappings reverse_order)).
  intros m Hm. simpl. rewrite !elem_of_cons, !elem_of_nil.
  split.
  - intros [->|[->|[]]]; [discriminate Hm|by left].
  - intros [->|[->|[]]]; right; by left.
Defined.

Lemma X12_witness :
  ∃ m chrom pos als,
    m ∈ default [] (mappings (entry_A_G_T true)) ∧ kept m chrom pos als ∧
    "7" = normalize_chr chrom ∧ 117559590%Z = pos ∧
    "A" = hd "" (Str.split "/" als) ∧
    ("T" ∈ tail (Str.split "/" als) ∨
     (tail (Str.split "/" als) = [] ∧ "T" = "A")) ∧
    ¬ occurs "/" "A" ∧ ¬ occurs "/" "T".
Proof.
  apply (X12_parse_sound elements_order (entry_A_G_T true)
           ("7", 117559590%Z, "A", "T")).
  apply (list_elem_of_lookup_2 _ 1%nat). vm_compute. reflexivity.
Defined.

Lemma X13_witness :
  ∃ datas, length datas = length [["rs1"; "rs2"]; ["rs3"]] ∧
    aggregate elements_order empty_state
      [(["rs1"; "rs2"], demo_body); (["rs3"], ∅)]
    = aggregate elements_order empty_state (zip [["rs1"; "rs2"]; ["rs3"]] datas) ∧
    Forall (λ d, ∃ ra, Response 200 ra (Some d) ∈ net demo_world) datas.
Proof.
  apply (proj2 (X13_aggregate_found_missing elements_order)
           [["rs1"; "rs2"]; ["rs3"]] empty_state demo_world _ demo_end).
  vm_compute. reflexivity.
Defined.

Lemma X14_witness :
  ∃ P : list (string * coord),
    found demo_state = list_to_set P.*1 ∧
    coord_rows demo_state = list_to_set (coord_row <$> P) ∧
    id_rows demo_state = list_to_set ((λ p, colon_row p.2) <$> P) ∧
    range_rows demo_state = list_to_set (range_row <$> P) ∧
    Forall (λ p, p.1 ∈ read_rsids demo_lines ∧ p.1 ∈ found demo_state ∧
                 p.1 ∉ missing demo_state) P.
Proof.
  apply (X14_run_rows_consistent elements_order demo_lines 2 demo_world
           (read_rsids demo_lines) demo_state demo_end).
  vm_compute. reflexivity.
Defined.

Lemma X15_witness :
  main_loop elements_order [["rs1"]; ["rs2"]] empty_state
    (World (mjoin (batch_script
                     <$> [([Response 429 (Some (Float (Finite (Q2Qc 3)))) None], ∅);
                          ([], ∅)]) ++ [NetFail]) [] [])
  = Ret (aggregate elements_order empty_state
           (zip [["rs1"]; ["rs2"]]
              [([Response 429 (Some (Float (Finite (Q2Qc 3)))) None], ∅);
               ([], ∅)].*2))
      (World [NetFail]
         ([] ++ script_sleeps
                  [([Response 429 (Some (Float (Finite (Q2Qc 3)))) None], ∅);
                   ([], ∅)])
         ([] ++ script_posts [["rs1"]; ["rs2"]]
                  [([Response 429 (Some (Float (Finite (Q2Qc 3)))) None], ∅);
                   ([], ∅)])) ∧
  script_sleeps [([], (∅ : gmap string entry)); ([], ∅)]
  = replicate (length [["rs1"]; ["rs2"]]) tenth ∧
  script_posts [["rs1"]; ["rs2"]] [([], (∅ : gmap string entry)); ([], ∅)]
  = [["rs1"]; ["rs2"]].
Proof.
  split.
  - apply (X15_log_of_a_tolerable_run elements_order [["rs1"]; ["rs2"]]
             [([Response 429 (Some (Float (Finite (Q2Qc 3)))) None], ∅); ([], ∅)]
             empty_state [NetFail] [] []).
    + reflexivity.
    + apply Forall_cons. split.
      * split; [|split; [|simpl; unfold default_max_retries; lia]].
        -- apply Forall_cons. split; [|constructor].
           apply (list_elem_of_lookup_2 _ 0%nat). reflexivity.
        -- apply Forall_cons. split; [|constructor]. vm_compute. reflexivity.
      * apply Forall_cons. split; [|constructor].
        split; [constructor|split; [constructor|simpl; lia]].
  - apply (X15_log_of_a_tolerable_run elements_order [["rs1"]; ["rs2"]]
             [([], ∅); ([], ∅)] empty_state [NetFail] [] []).
    + reflexivity.
    + apply Forall_cons. split.
      * split; [constructor|split; [constructor|simpl; lia]].
      * apply Forall_cons. split; [|constructor].
        split; [constructor|split; [constructor|simpl; lia]].
    + apply Forall_cons. split; [reflexivity|].
      apply Forall_cons. split; [reflexivity|constructor].
Defined.

Lemma X16_witness :
  Str.split "010" (write_rows elements_order ({["b"]} ∪ {["a"]}))
  = sorted_strs elements_order ({["b"]} ∪ {["a"]}) ++ [""] ∧
  length (sorted_strs elements_order ({["b"]} ∪ {["a"]}))
  = size ({["b"]} ∪ {["a"]} : gset string).
Proof.
  apply (X16_write_rows_split elements_order ({["b"]} ∪ {["a"]})).
  intros row [->%elem_of_singleton| ->%elem_of_singleton]%elem_of_union;
    simpl; intros [?|[]]; discriminate.
Defined.

Lemma X17_witness :
  foldl (process_id elements_order demo_body) empty_state ["rs1"; "rs2"; "rs1"]
  = foldl (process_id elements_order demo_body) empty_state ["rs2"; "rs1"].
Proof.
  apply (X17_batch_order_irrelevant elements_order demo_body).
  intros x. rewrite !elem_of_cons, !elem_of_nil. tauto.
Defined.

Lemma X18_witness :
  ∃ logs : list (nat * list Qc),
    length logs = length [["rs1"; "rs2"]; ["rs3"]] ∧
    posted demo_end
    = posted demo_world
        ++ mjoin (zip_with (λ b l, replicate l.1 b) [["rs1"; "rs2"]; ["rs3"]] logs) ∧
    slept demo_end = slept demo_world ++ (logs ≫= λ l, l.2 ++ [tenth]) ∧
    Forall (λ l, (length l.2 < l.1)%nat ∧
                 (1 ≤ length (l.2 ++ [tenth]) ≤ 6)%nat ∧
                 Forall (λ d, (quarter ≤ d)%Qc) l.2) logs.
Proof.
  apply (X18_log_bounds_of_a_completed_loop elements_order
           [["rs1"; "rs2"]; ["rs3"]] empty_state demo_world
           (aggregate elements_order empty_state
              [(["rs1"; "rs2"], demo_body); (["rs3"], ∅)])
           demo_end).
  vm_compute. reflexivity.
Defined.

Lemma X19_witness :
  post_variation_batch ["rs1"] 5
    (World ([NetFail] ++ Response 200 None None :: []) [] [])
  = Raise JSONDecodeError
      (World [] ([] ++ retry_delays 0 [NetFail]) ([] ++ replicate 2 ["rs1"])) ∧
  post_variation_batch ["rs1"] 5
    (World ([NetFail]
              ++ Response 503 (Some (Float (Finite (Q2Qc 10000000000)))) None
              :: []) [] [])
  = Raise OverflowError
      (World [] ([] ++ retry_delays 0 [NetFail]) ([] ++ replicate 2 ["rs1"])) ∧
  main elements_order ["rs1"; "rs2"; "rs3"] 1
    (World [Response 200 None (Some ∅); Response 429 (Some NotFloat) None;
            Response 200 None (Some ∅)] [] [])
  = Raise ValueError
      (World [Response 200 None (Some ∅)] [tenth] ([["rs1"]] ++ [["rs2"]])).
Proof.
  assert (Forall transient [NetFail]) as Hf by (repeat constructor).
  assert (Forall honourable [NetFail]) as Hh by (repeat constructor).
  split; [|split].
  - apply (proj1 X19_what_ends_a_call_below_the_ceiling 5 ["rs1"] [NetFail]);
      [exact Hf|exact Hh|simpl; lia|simpl; lia].
  - apply (proj1 (proj2 X19_what_ends_a_call_below_the_ceiling) 5 ["rs1"] [NetFail]
             (Response 503 (Some (Float (Finite (Q2Qc 10000000000)))) None)
             OverflowError);
      [exact Hf|exact Hh|simpl; lia|simpl; lia|].
    split; [|split].
    + apply (list_elem_of_lookup_2 _ 3%nat). reflexivity.
    + intros Hlt. vm_compute in Hlt. discriminate Hlt.
    + discriminate.
  - apply (proj2 (proj2 X19_what_ends_a_call_below_the_ceiling) elements_order
             ["rs1"; "rs2"; "rs3"] 1%Z [["rs1"]] ["rs2"] [["rs3"]]
             (World [Response 200 None (Some ∅); Response 429 (Some NotFloat) None;
                     Response 200 None (Some ∅)] [] [])
             (aggregate elements_order empty_state [(["rs1"], ∅)])
             (World [Response 429 (Some NotFloat) None; Response 200 None (Some ∅)]
                [tenth] [["rs1"]])
             (Response 429 (Some NotFloat) None) ValueError
             [Response 200 None (Some ∅)]).
    + vm_compute. discriminate.
    + vm_compute. reflexivity.
    + vm_compute. reflexivity.
    + reflexivity.
    + left. split; [|reflexivity].
      apply (list_elem_of_lookup_2 _ 0%nat). reflexivity.
Defined.
